(** * BRC-20 ledger store and block ingestion of the ordinals API

    A shallow embedding of [src/pg/brc20-pg-store.ts] (class [Brc20PgStore])
    and of [src/ordhook/index.ts] ([buildOrdhookIndexer]).

    The relational store is a record of tables, every table a list of rows
    in insertion order.  A SQL statement is a pure function on that record;
    a statement that Postgres refuses, and a JavaScript [TypeError], make
    the enclosing transaction fail, which is the [Throw] of the [result]
    type: the caller sees no new state.

    Amounts are exact decimals.  [bignumber.js] values and Postgres
    [numeric] columns are both read as rationals ([Q]); the amounts of an
    operation arrive as the strings of the inscription. *)

From Stdlib Require Import String Ascii List Bool ZArith NArith QArith Qminmax Lia Lqa.
Import ListNotations.

Local Open Scope string_scope.
Local Open Scope list_scope.

(** ** Strings *)

Module Str.

(** [String.prototype.includes] for a one-character needle. *)
Fixpoint includes (c : ascii) (s : string) : bool :=
  match s with
  | EmptyString => false
  | String a r => Ascii.eqb a c || includes c r
  end.

(** [String.prototype.split] for a one-character separator; the empty
    string splits into one empty piece. *)
Fixpoint split (sep : ascii) (s : string) : list string :=
  match s with
  | EmptyString => [EmptyString]
  | String a r =>
      if Ascii.eqb a sep then EmptyString :: split sep r
      else match split sep r with
           | h :: t => String a h :: t
           | [] => [String a EmptyString]
           end
  end.

Definition lower_ascii (c : ascii) : ascii :=
  let n := N_of_ascii c in
  if (65 <=? n)%N && (n <=? 90)%N then ascii_of_N (n + 32) else c.

(** [LOWER(...)] of SQL and [toLowerCase] of JavaScript, on the ASCII
    letters. *)
Fixpoint lower (s : string) : string :=
  match s with
  | EmptyString => EmptyString
  | String a r => String (lower_ascii a) (lower r)
  end.

End Str.

(** ** Decimal numerals *)

Module Numeric.

Definition digit_of (c : ascii) : option Z :=
  let n := N_of_ascii c in
  if (48 <=? n)%N && (n <=? 57)%N then Some (Z.of_N (n - 48)) else None.

(** The value of a run of decimal digits read after [acc]. *)
Fixpoint digits_of (s : string) (acc : Z) : option Z :=
  match s with
  | EmptyString => Some acc
  | String c r =>
      match digit_of c with
      | Some d => digits_of r (10 * acc + d)
      | None => None
      end
  end.

Definition pow10 (n : nat) : positive := Z.to_pos (10 ^ Z.of_nat n).

(** A plain decimal numeral: digits, at most one point, at least one
    digit.  The parser of the inscriptions lets no sign, exponent or
    radix prefix through, so those notations are not read here. *)
Definition parse (s : string) : option Q :=
  match Str.split "." s with
  | [i] =>
      match i with
      | EmptyString => None
      | _ => option_map (fun z => z # 1) (digits_of i 0)
      end
  | [i; f] =>
      match (i ++ f)%string with
      | EmptyString => None
      | d => option_map (fun z => z # pow10 (String.length f)) (digits_of d 0)
      end
  | _ => None
  end.

(** Digits only: the text of an [int] column, and what [parseInt]
    gives back for it. *)
Definition parse_int (s : string) : option N :=
  match s with
  | EmptyString => None
  | _ => option_map Z.to_N (digits_of s 0)
  end.

(** [bignumber.js]: a value is a number or NaN. *)
Definition BigNumber := option Q.

Definition of_string (s : string) : BigNumber := parse s.
Definition of_Q (q : Q) : BigNumber := Some q.

(** Every comparison with NaN is false. *)
Definition isGreaterThan (x y : BigNumber) : bool :=
  match x, y with
  | Some a, Some b => negb (Qle_bool a b)
  | _, _ => false
  end.

Definition isLessThanOrEqualTo (x y : BigNumber) : bool :=
  match x, y with
  | Some a, Some b => Qle_bool a b
  | _, _ => false
  end.

Definition minus (x y : BigNumber) : BigNumber :=
  match x, y with
  | Some a, Some b => Some (a - b)
  | _, _ => None
  end.

Definition negated (x : BigNumber) : BigNumber := option_map Qopp x.

(** [BigNumber.min]: the first argument unless the second is strictly
    smaller; NaN if either is NaN. *)
Definition min (x y : BigNumber) : BigNumber :=
  match x, y with
  | Some a, Some b => Some (if Qle_bool a b then a else b)
  | _, _ => None
  end.

Definition qsum (l : list Q) : Q := fold_right Qplus 0 l.

End Numeric.

(** ** Failing statements *)

Inductive error : Set :=
| InvalidTextRepresentation   (* text that is no number sent to a numeric column *)
| NotNullViolation            (* NULL sent to a NOT NULL column *)
| TypeError.                  (* property read on [undefined] *)

Inductive result (A : Type) : Type :=
| Ok (a : A)
| Throw (e : error).
Arguments Ok {A} a.
Arguments Throw {A} e.

Definition bind {A B : Type} (r : result A) (k : A -> result B) : result B :=
  match r with
  | Ok a => k a
  | Throw e => Throw e
  end.

Notation "x <- r ;; k" := (bind r (fun x => k))
  (at level 61, r at next level, right associativity).

Definition or_throw {A : Type} (e : error) (o : option A) : result A :=
  match o with
  | Some a => Ok a
  | None => Throw e
  end.

(** ** Operations and rows *)

(** The typed operations of [helpers] ([Brc20Deploy], [Brc20Mint],
    [Brc20Transfer]); numbers are still the strings of the payload. *)
Record Brc20Deploy : Set := {
  deploy_tick : string;
  deploy_max : string;
  deploy_lim : option string;
  deploy_dec : option string
}.

Record Brc20Mint : Set := {
  mint_tick : string;
  mint_amt : string
}.

Record Brc20Transfer : Set := {
  transfer_tick : string;
  transfer_amt : string
}.

Inductive Brc20 : Set :=
| OpDeploy (deploy : Brc20Deploy)
| OpMint (mint : Brc20Mint)
| OpTransfer (transfer : Brc20Transfer).

(** [DbLocationInsert], with the fields the store reads. *)
Record DbLocationInsert : Set := {
  genesis_id : string;
  block_height : N;
  tx_id : string;
  address : option string
}.

Record DbBrc20Deploy : Set := {
  d_id : N;
  d_inscription_id : N;
  d_block_height : N;
  d_tx_id : string;
  d_address : string;
  d_ticker : string;
  d_max : Q;
  d_limit : option Q;
  d_decimals : N
}.

Record DbBrc20MintRow : Set := {
  m_inscription_id : N;
  m_brc20_deploy_id : N;
  m_block_height : N;
  m_tx_id : string;
  m_address : option string;
  m_amount : Q
}.

Record DbBrc20Transfer : Set := {
  t_id : N;
  t_inscription_id : N;
  t_brc20_deploy_id : N;
  t_block_height : N;
  t_tx_id : string;
  t_from_address : string;
  t_to_address : option string;
  t_amount : Q
}.

Record DbBrc20BalanceRow : Set := {
  b_inscription_id : N;
  b_brc20_deploy_id : N;
  b_block_height : N;
  b_address : option string;
  b_avail_balance : Q;
  b_trans_balance : Q
}.

Record DbBrc20EventInsert : Set := {
  e_inscription_id : N;
  e_brc20_deploy_id : N;
  e_deploy_id : option N;
  e_mint_id : option N;
  e_transfer_id : option N
}.

Record DbLocationRow : Set := {
  l_inscription_id : N;
  l_block_height : N;
  l_tx_id : string;
  l_address : option string
}.

(** The database.  [deploys_seq] and [transfers_seq] are the serial
    counters that give [brc20_deploys.id] and [brc20_transfers.id]; the
    other tables' ids are never read by the store and are left out.
    [address_not_null] is the one constraint of the schema that the store
    can run into and that its sources do not settle: whether the [address]
    columns of [brc20_mints] and [brc20_balances] refuse NULL. *)
Record Db : Set := {
  address_not_null : bool;
  brc20_deploys : list DbBrc20Deploy;
  brc20_mints : list DbBrc20MintRow;
  brc20_transfers : list DbBrc20Transfer;
  brc20_balances : list DbBrc20BalanceRow;
  brc20_events : list DbBrc20EventInsert;
  locations : list DbLocationRow;
  deploys_seq : N;
  transfers_seq : N
}.

Definition empty_db (not_null : bool) : Db :=
  {| address_not_null := not_null;
     brc20_deploys := []; brc20_mints := []; brc20_transfers := [];
     brc20_balances := []; brc20_events := []; locations := [];
     deploys_seq := 1; transfers_seq := 1 |}.

Definition address_eqb (a b : option string) : bool :=
  match a, b with
  | Some x, Some y => String.eqb x y
  | None, None => true
  | _, _ => false
  end.

(** The truth value JavaScript gives a [string | null]: null and the
    empty string are falsy.  What is left is the address itself. *)
Definition truthy (a : option string) : option string :=
  match a with
  | Some EmptyString => None
  | _ => a
  end.

(** A NULL in an address column: refused when the column is NOT NULL. *)
Definition address_accepted (db : Db) (a : option string) : bool :=
  match a with
  | Some _ => true
  | None => negb (address_not_null db)
  end.

(** ** The store *)

Module Brc20PgStore.

Import Numeric.

(** *** Statements *)

Definition add_deploy (row : DbBrc20Deploy) (db : Db) : Db :=
  {| address_not_null := address_not_null db;
     brc20_deploys := brc20_deploys db ++ [row];
     brc20_mints := brc20_mints db;
     brc20_transfers := brc20_transfers db;
     brc20_balances := brc20_balances db;
     brc20_events := brc20_events db;
     locations := locations db;
     deploys_seq := deploys_seq db + 1;
     transfers_seq := transfers_seq db |}.

Definition ticker_taken (ticker : string) (db : Db) : bool :=
  existsb (fun d => String.eqb (Str.lower (d_ticker d)) (Str.lower ticker))
          (brc20_deploys db).

(** [INSERT INTO brc20_deploys ... ON CONFLICT (LOWER(ticker)) DO NOTHING
    RETURNING id]: the returned ids (none on conflict) and the new
    state.  The id of a new row comes from the serial counter. *)
Definition insert_deploy_on_conflict_do_nothing
    (inscription_id : N) (location : DbLocationInsert) (addr : string)
    (ticker : string) (max : Q) (limit : option Q) (decimals : N)
    (db : Db) : list N * Db :=
  if ticker_taken ticker db then ([], db)
  else
    ([deploys_seq db],
     add_deploy {| d_id := deploys_seq db;
                   d_inscription_id := inscription_id;
                   d_block_height := block_height location;
                   d_tx_id := tx_id location;
                   d_address := addr;
                   d_ticker := ticker;
                   d_max := max;
                   d_limit := limit;
                   d_decimals := decimals |} db).

Definition insert_event (e : DbBrc20EventInsert) (db : Db) : Db :=
  {| address_not_null := address_not_null db;
     brc20_deploys := brc20_deploys db;
     brc20_mints := brc20_mints db;
     brc20_transfers := brc20_transfers db;
     brc20_balances := brc20_balances db;
     brc20_events := brc20_events db ++ [e];
     locations := locations db;
     deploys_seq := deploys_seq db;
     transfers_seq := transfers_seq db |}.

Definition add_mint (m : DbBrc20MintRow) (db : Db) : Db :=
  {| address_not_null := address_not_null db;
     brc20_deploys := brc20_deploys db;
     brc20_mints := brc20_mints db ++ [m];
     brc20_transfers := brc20_transfers db;
     brc20_balances := brc20_balances db;
     brc20_events := brc20_events db;
     locations := locations db;
     deploys_seq := deploys_seq db;
     transfers_seq := transfers_seq db |}.

(** [INSERT INTO brc20_mints]. *)
Definition insert_mint (m : DbBrc20MintRow) (db : Db) : result Db :=
  if address_accepted db (m_address m) then Ok (add_mint m db)
  else Throw NotNullViolation.

Definition add_balances (rows : list DbBrc20BalanceRow) (db : Db) : Db :=
  {| address_not_null := address_not_null db;
     brc20_deploys := brc20_deploys db;
     brc20_mints := brc20_mints db;
     brc20_transfers := brc20_transfers db;
     brc20_balances := brc20_balances db ++ rows;
     brc20_events := brc20_events db;
     locations := locations db;
     deploys_seq := deploys_seq db;
     transfers_seq := transfers_seq db |}.

(** One [INSERT INTO brc20_balances] statement, of one row or several:
    all rows or none. *)
Definition insert_balances (rows : list DbBrc20BalanceRow) (db : Db) : result Db :=
  if forallb (fun b => address_accepted db (b_address b)) rows
  then Ok (add_balances rows db)
  else Throw NotNullViolation.

Definition add_transfer (row : DbBrc20Transfer) (db : Db) : Db :=
  {| address_not_null := address_not_null db;
     brc20_deploys := brc20_deploys db;
     brc20_mints := brc20_mints db;
     brc20_transfers := brc20_transfers db ++ [row];
     brc20_balances := brc20_balances db;
     brc20_events := brc20_events db;
     locations := locations db;
     deploys_seq := deploys_seq db;
     transfers_seq := transfers_seq db + 1 |}.

(** [INSERT INTO brc20_transfers]; the id comes from the serial counter
    and the receiver is not known yet. *)
Definition insert_transfer
    (inscription_id deploy_id : N) (location : DbLocationInsert)
    (from : string) (amount : Q) (db : Db) : Db :=
  add_transfer {| t_id := transfers_seq db;
                  t_inscription_id := inscription_id;
                  t_brc20_deploy_id := deploy_id;
                  t_block_height := block_height location;
                  t_tx_id := tx_id location;
                  t_from_address := from;
                  t_to_address := None;
                  t_amount := amount |} db.

Definition set_to_address (to : option string) (t : DbBrc20Transfer)
  : DbBrc20Transfer :=
  {| t_id := t_id t;
     t_inscription_id := t_inscription_id t;
     t_brc20_deploy_id := t_brc20_deploy_id t;
     t_block_height := t_block_height t;
     t_tx_id := t_tx_id t;
     t_from_address := t_from_address t;
     t_to_address := to;
     t_amount := t_amount t |}.

(** [UPDATE brc20_transfers SET to_address = ... WHERE id = ...]. *)
Definition update_to_address (id : N) (to : option string) (db : Db) : Db :=
  {| address_not_null := address_not_null db;
     brc20_deploys := brc20_deploys db;
     brc20_mints := brc20_mints db;
     brc20_transfers :=
       map (fun t => if (t_id t =? id)%N then set_to_address to t else t)
           (brc20_transfers db);
     brc20_balances := brc20_balances db;
     brc20_events := brc20_events db;
     locations := locations db;
     deploys_seq := deploys_seq db;
     transfers_seq := transfers_seq db |}.

(** *** Queries *)

(** [getDeploy]: the first row whose lowered ticker is the lowered
    argument. *)
Definition getDeploy (ticker : string) (db : Db) : option DbBrc20Deploy :=
  find (fun d => String.eqb (Str.lower (d_ticker d)) (Str.lower ticker))
       (brc20_deploys db).

(** [DbBrc20Balance]: one group of [getBalances]. *)
Record DbBrc20Balance : Set := {
  bal_ticker : string;
  avail_balance : Q;
  trans_balance : Q;
  total_balance : Q
}.

Record DbPaginatedResult (A : Type) : Type := {
  total : nat;
  results : list A
}.
Arguments total {A} _.
Arguments results {A} _.

(** The rows of [brc20_balances AS b INNER JOIN brc20_deploys AS d ON
    d.id = b.brc20_deploy_id] that pass the WHERE clause of
    [getBalances], with the ticker of the deploy. *)
Definition balances_join (addr : string) (lowerTickers : option (list string))
    (db : Db) : list (string * DbBrc20BalanceRow) :=
  flat_map
    (fun b =>
       map (fun d => (d_ticker d, b))
           (filter
              (fun d =>
                 (d_id d =? b_brc20_deploy_id b)%N
                 && match lowerTickers with
                    | Some ts => existsb (String.eqb (Str.lower (d_ticker d))) ts
                    | None => true
                    end)
              (brc20_deploys db)))
    (filter (fun b => address_eqb (b_address b) (Some addr)) (brc20_balances db)).

(** [GROUP BY d.ticker] with the three sums. *)
Definition balance_group (joined : list (string * DbBrc20BalanceRow))
    (ticker : string) : DbBrc20Balance :=
  let rows := map snd (filter (fun p => String.eqb (fst p) ticker) joined) in
  {| bal_ticker := ticker;
     avail_balance := qsum (map b_avail_balance rows);
     trans_balance := qsum (map b_trans_balance rows);
     total_balance :=
       qsum (map (fun b => b_avail_balance b + b_trans_balance b) rows) |}.

Definition getBalances (addr : string) (ticker : option (list string))
    (limit offset : nat) (db : Db) : DbPaginatedResult DbBrc20Balance :=
  let lowerTickers := option_map (map Str.lower) ticker in
  let joined := balances_join addr lowerTickers db in
  let groups := map (balance_group joined) (nodup string_dec (map fst joined)) in
  let page := firstn limit (skipn offset groups) in
  {| total := match page with [] => O | _ => length groups end;
     results := page |}.

(** *** Writing operations *)

(** [insertDeploy].  The values of the row are sent as text and read by
    Postgres into the [numeric] and [int] columns. *)
Definition insertDeploy (deploy : Brc20Deploy) (inscription_id : N)
    (location : DbLocationInsert) (db : Db) : result Db :=
  match truthy (address location) with
  | None => Ok db
  | Some addr =>
      max <- or_throw InvalidTextRepresentation (parse (deploy_max deploy)) ;;
      limit <- match deploy_lim deploy with
               | None => Ok None
               | Some l =>
                   v <- or_throw InvalidTextRepresentation (parse l) ;; Ok (Some v)
               end ;;
      decimals <- or_throw InvalidTextRepresentation
                    (parse_int match deploy_dec deploy with
                               | Some d => d
                               | None => "18"
                               end) ;;
      let (insertion, db1) :=
        insert_deploy_on_conflict_do_nothing
          inscription_id location addr (deploy_tick deploy) max limit decimals db in
      match insertion with
      | id :: _ =>
          (* Add to history *)
          Ok (insert_event {| e_inscription_id := inscription_id;
                              e_brc20_deploy_id := id;
                              e_deploy_id := Some id;
                              e_mint_id := None;
                              e_transfer_id := None |} db1)
      | [] => Ok db1
      end
  end.

(** [SELECT COALESCE(SUM(amount), 0) FROM brc20_mints WHERE
    brc20_deploy_id = ...]. *)
Definition mintedSupply (deploy_id : N) (db : Db) : Q :=
  qsum (map m_amount
            (filter (fun m => (m_brc20_deploy_id m =? deploy_id)%N) (brc20_mints db))).

(** The test on the decimals of [insertMint]:
    [amt.includes('.') && amt.split('.')[1].length > parseInt(decimals)]. *)
Definition exceeds_decimals (amt : string) (decimals : N) : bool :=
  Str.includes "." amt
  && (decimals <? N.of_nat (String.length (nth 1 (Str.split "." amt) "")))%N.

Definition insertMint (mint : Brc20Mint) (inscription_id : N)
    (location : DbLocationInsert) (db : Db) : result Db :=
  (* Is the token deployed? *)
  match getDeploy (mint_tick mint) db with
  | None => Ok db
  | Some token =>
      (* Is the mint amount within the allowed token limits? *)
      if match d_limit token with
         | Some limit => isGreaterThan (of_string (mint_amt mint)) (of_Q limit)
         | None => false
         end
      then Ok db
      (* Is the number of decimals correct? *)
      else if exceeds_decimals (mint_amt mint) (d_decimals token)
      then Ok db
      else
        (* Does the mint amount exceed remaining supply? *)
        let minted := of_Q (mintedSupply (d_id token) db) in
        let availSupply := minus (of_Q (d_max token)) minted in
        if isLessThanOrEqualTo availSupply (of_Q 0) then Ok db
        else
          let mintAmt := min availSupply (of_string (mint_amt mint)) in
          amount <- or_throw InvalidTextRepresentation (parse (mint_amt mint)) ;;
          db1 <- insert_mint {| m_inscription_id := inscription_id;
                                m_brc20_deploy_id := d_id token;
                                m_block_height := block_height location;
                                m_tx_id := tx_id location;
                                m_address := address location;
                                m_amount := amount (* Original requested amount *) |}
                             db ;;
          (* Insert balance change for minting address; the amount is a
             number here, the row above took the same text *)
          avail <- or_throw InvalidTextRepresentation mintAmt ;;
          insert_balances [ {| b_inscription_id := inscription_id;
                               b_brc20_deploy_id := d_id token;
                               b_block_height := block_height location;
                               b_address := address location;
                               b_avail_balance := avail (* Real minted balance *);
                               b_trans_balance := 0 |} ]
                          db1
  end.

Definition insertTransfer (transfer : Brc20Transfer) (inscription_id : N)
    (location : DbLocationInsert) (db : Db) : result Db :=
  (* Is the destination a valid address? *)
  match truthy (address location) with
  | None => Ok db
  | Some addr =>
      (* Is the token deployed? *)
      match getDeploy (transfer_tick transfer) db with
      | None => Ok db
      | Some token =>
          (* Get balance for this address and this token *)
          let balanceResult :=
            getBalances addr (Some [transfer_tick transfer]) 1 0 db in
          (* Do we have enough available balance to do this transfer? *)
          let transAmt := of_string (transfer_amt transfer) in
          let available :=
            of_Q match results balanceResult with
                 | r :: _ => avail_balance r
                 | [] => 0
                 end in
          if isGreaterThan transAmt available then Ok db
          else
            amount <- or_throw InvalidTextRepresentation
                        (parse (transfer_amt transfer)) ;;
            let db1 := insert_transfer inscription_id (d_id token) location
                                       addr amount db in
            (* Insert balance change for minting address; the amount is
               a number here, the row above took the same text *)
            avail <- or_throw InvalidTextRepresentation (negated transAmt) ;;
            trans <- or_throw InvalidTextRepresentation transAmt ;;
            insert_balances [ {| b_inscription_id := inscription_id;
                                 b_brc20_deploy_id := d_id token;
                                 b_block_height := block_height location;
                                 b_address := Some addr;
                                 b_avail_balance := avail;
                                 b_trans_balance := trans |} ]
                            db1
      end
  end.

Definition applyBalanceTransfer (transfer : DbBrc20Transfer)
    (location : DbLocationInsert) (db : Db) : result Db :=
  (* Reflect balance transfer *)
  let amount := t_amount transfer in
  let changes :=
    [ {| b_inscription_id := t_inscription_id transfer;
         b_brc20_deploy_id := t_brc20_deploy_id transfer;
         b_block_height := block_height location;
         b_address := Some (t_from_address transfer);
         b_avail_balance := 0;
         b_trans_balance := - amount |};
      {| b_inscription_id := t_inscription_id transfer;
         b_brc20_deploy_id := t_brc20_deploy_id transfer;
         b_block_height := block_height location;
         b_address := address location;
         b_avail_balance := amount;
         b_trans_balance := 0 |} ] in
  db1 <- insert_balances changes db ;;
  (* Keep the new valid owner of the transfer inscription *)
  Ok (update_to_address (t_id transfer) (address location) db1).

(** [insertOperationGenesis]; [brc20] is what [brc20FromInscription]
    (in [helpers]) made of the inscription. *)
Definition insertOperationGenesis (brc20 : option Brc20) (inscription_id : N)
    (location : DbLocationInsert) (db : Db) : result Db :=
  match brc20 with
  | Some op =>
      match truthy (address location) with
      | Some _ =>
          match op with
          | OpDeploy deploy => insertDeploy deploy inscription_id location db
          | OpMint mint => insertMint mint inscription_id location db
          | OpTransfer transfer => insertTransfer transfer inscription_id location db
          end
      | None => Ok db
      end
  | None => Ok db
  end.

(** The rows of [locations AS l INNER JOIN brc20_transfers AS t ON
    t.inscription_id = l.inscription_id WHERE l.inscription_id = ...
    LIMIT 3]. *)
Definition transfers_of_inscription (inscription_id : N) (db : Db)
  : list DbBrc20Transfer :=
  firstn 3
    (flat_map
       (fun l => filter (fun t => (t_inscription_id t =? l_inscription_id l)%N)
                        (brc20_transfers db))
       (filter (fun l => (l_inscription_id l =? inscription_id)%N) (locations db))).

Definition insertOperationTransfer (inscription_id : N)
    (location : DbLocationInsert) (db : Db) : result Db :=
  let brc20Transfer := transfers_of_inscription inscription_id db in
  match brc20Transfer with
  | [first; _] =>
      (* This is the first time this BRC-20 transfer is being used. *)
      applyBalanceTransfer first location db
  | _ => Ok db
  end.

(** *** Supply *)

Record DbBrc20Supply : Set := {
  max_supply : Q;
  minted_supply : Q;
  holders : nat
}.

Definition rows_of_deploy (deploy_id : N) (db : Db) : list DbBrc20BalanceRow :=
  filter (fun b => (b_brc20_deploy_id b =? deploy_id)%N) (brc20_balances db).

Definition row_total (b : DbBrc20BalanceRow) : Q :=
  b_avail_balance b + b_trans_balance b.

(** [SELECT SUM(avail_balance + trans_balance) AS total ... WHERE
    brc20_deploy_id = ... GROUP BY brc20_deploy_id]: one row per group,
    so no row when no balance row has that deploy. *)
Definition minted_query (deploy_id : N) (db : Db) : list Q :=
  match rows_of_deploy deploy_id db with
  | [] => []
  | rows => [qsum (map row_total rows)]
  end.

Definition option_string_dec (a b : option string) : {a = b} + {a <> b}.
Proof. decide equality. apply string_dec. Defined.

(** The [historical_holders] of the query: one summed balance per
    address. *)
Definition historical_holders (deploy_id : N) (db : Db) : list Q :=
  let rows := rows_of_deploy deploy_id db in
  map (fun a => qsum (map row_total
                          (filter (fun b => address_eqb (b_address b) a) rows)))
      (nodup option_string_dec (map b_address rows)).

(** [SELECT COUNT( * ) ... WHERE balance > 0]: always one row. *)
Definition holders_query (deploy_id : N) (db : Db) : list nat :=
  [length (filter (fun bal => negb (Qle_bool bal 0)) (historical_holders deploy_id db))].

Definition supply_query (deploy_id : N) (db : Db) : list Q :=
  map d_max (filter (fun d => (d_id d =? deploy_id)%N) (brc20_deploys db)).

(** [getTokenSupply]; [Ok None] is the [undefined] of an unknown
    ticker.  Reading a field of the first row of an empty result is the
    [TypeError]. *)
Definition getTokenSupply (ticker : string) (db : Db) : result (option DbBrc20Supply) :=
  match getDeploy ticker db with
  | None => Ok None
  | Some deploy =>
      let minted := minted_query (d_id deploy) db in
      let holders := holders_query (d_id deploy) db in
      let supply := supply_query (d_id deploy) db in
      max <- or_throw TypeError (nth_error supply 0) ;;
      total <- or_throw TypeError (nth_error minted 0) ;;
      count <- or_throw TypeError (nth_error holders 0) ;;
      Ok (Some {| max_supply := max; minted_supply := total; holders := count |})
  end.

End Brc20PgStore.

(** ** The locations of the inscriptions *)

(** The [locations] table is written by the block handler of [pg-store]
    and only read by the store: one row for every delivery of an
    inscription. *)
Definition insert_location (inscription_id : N) (location : DbLocationInsert)
    (db : Db) : Db :=
  {| address_not_null := address_not_null db;
     brc20_deploys := brc20_deploys db;
     brc20_mints := brc20_mints db;
     brc20_transfers := brc20_transfers db;
     brc20_balances := brc20_balances db;
     brc20_events := brc20_events db;
     locations := locations db ++ [ {| l_inscription_id := inscription_id;
                                       l_block_height := block_height location;
                                       l_tx_id := tx_id location;
                                       l_address := address location |} ];
     deploys_seq := deploys_seq db;
     transfers_seq := transfers_seq db |}.

(** The states the store can be in: from the empty store, by the two
    entry points of the store and by whatever the block handler writes to
    its [locations]. *)
Inductive reachable : Db -> Prop :=
| reachable_empty not_null :
    reachable (empty_db not_null)
| reachable_location inscription_id location db :
    reachable db ->
    reachable (insert_location inscription_id location db)
| reachable_genesis brc20 inscription_id location db db' :
    reachable db ->
    Brc20PgStore.insertOperationGenesis brc20 inscription_id location db = Ok db' ->
    reachable db'
| reachable_transfer inscription_id location db db' :
    reachable db ->
    Brc20PgStore.insertOperationTransfer inscription_id location db = Ok db' ->
    reachable db'.

(** ** Deliveries *)

(** Modelled from the spec: the block handler of [pg-store] that calls the
    store is not among the sources.  Following section 4.4 it hands the
    first appearance of an inscription to [insertOperationGenesis] and
    every later movement to [insertOperationTransfer]; following the
    comment in [insertOperationTransfer] (the join counts "genesis +
    transfer"), the [locations] row of a delivery is written before the
    store is called. *)
Inductive Delivery : Set :=
| Genesis (inscription_id : N) (brc20 : option Brc20) (location : DbLocationInsert)
| Transfer (inscription_id : N) (location : DbLocationInsert).

(** Modelled from the spec: one delivery, as the absent block handler
    passes it on (see [Delivery]). *)
Definition deliver (ev : Delivery) (db : Db) : result Db :=
  match ev with
  | Genesis inscription_id brc20 location =>
      Brc20PgStore.insertOperationGenesis brc20 inscription_id location
        (insert_location inscription_id location db)
  | Transfer inscription_id location =>
      Brc20PgStore.insertOperationTransfer inscription_id location
        (insert_location inscription_id location db)
  end.

(** The deliveries of a run, oldest first; a failing delivery stops it. *)
Fixpoint run (evs : list Delivery) (db : Db) : result Db :=
  match evs with
  | [] => Ok db
  | ev :: rest => db1 <- deliver ev db ;; run rest db1
  end.

(** ** Block ingestion *)

Module Ordhook.

Section Indexer.

(** [OrdhookBlock]: the payload of a delivery, opaque here. *)
Variable OrdhookBlock : Type.

(** The two closures handed to the queue. *)
Inductive Job : Type :=
| InsertBlock (block : OrdhookBlock)      (* [db.insertBlock(block)] *)
| RollBackBlock (block : OrdhookBlock).   (* [db.rollBackBlock(block)] *)

(** [new PQueue({ concurrency: 1, autoStart: true })]: the job that
    runs, if any, and the jobs that wait, oldest first.  [started]
    keeps, oldest first, every job the queue has begun to run: the
    order in which the database saw them. *)
Record PQueue : Type := {
  running : option Job;
  waiting : list Job;
  started : list Job
}.

Definition idle : PQueue :=
  {| running := None; waiting := []; started := [] |}.

(** [jobQueue.size]: the jobs that wait, the running one not counted. *)
Definition size (q : PQueue) : nat := length (waiting q).

(** With one slot, the queue starts its oldest waiting job when
    nothing runs. *)
Definition tryToStartAnother (q : PQueue) : PQueue :=
  match running q, waiting q with
  | None, job :: rest =>
      {| running := Some job; waiting := rest; started := started q ++ [job] |}
  | _, _ => q
  end.

(** [jobQueue.add(job)]. *)
Definition add (job : Job) (q : PQueue) : PQueue :=
  tryToStartAnother
    {| running := running q; waiting := waiting q ++ [job]; started := started q |}.

(** The running job settles and the queue moves on. *)
Definition next (q : PQueue) : PQueue :=
  tryToStartAnother
    {| running := None; waiting := waiting q; started := started q |}.

(** The callback given to [ordhook.onBlock]. *)
Definition onBlock (block : OrdhookBlock) (jobQueue : PQueue) : bool * PQueue :=
  (* Early return: if the queue is full, reject the block *)
  if (10 <? size jobQueue)%nat then (false, jobQueue)
  else (true, add (InsertBlock block) jobQueue).

(** The callback given to [ordhook.onBlockRollBack]. *)
Definition onBlockRollBack (block : OrdhookBlock) (jobQueue : PQueue)
  : bool * PQueue :=
  if (10 <? size jobQueue)%nat then (false, jobQueue)
  else (true, add (RollBackBlock block) jobQueue).

(** What can happen to the indexer: a block or a rollback is offered,
    or the running job ends. *)
Inductive Event : Type :=
| Block (block : OrdhookBlock)
| RollBack (block : OrdhookBlock)
| Settled.

Definition job_of (ev : Event) : option Job :=
  match ev with
  | Block b => Some (InsertBlock b)
  | RollBack b => Some (RollBackBlock b)
  | Settled => None
  end.

(** One event: the answer given to the block source, if the event is
    an offer, and the queue afterwards. *)
Definition handle (ev : Event) (q : PQueue) : option bool * PQueue :=
  match ev with
  | Block b => let (r, q1) := onBlock b q in (Some r, q1)
  | RollBack b => let (r, q1) := onBlockRollBack b q in (Some r, q1)
  | Settled => (None, next q)
  end.

(** A history of events from a queue: the jobs accepted, in the order
    of arrival, and the queue at the end. *)
Fixpoint play (evs : list Event) (q : PQueue) : list Job * PQueue :=
  match evs with
  | [] => ([], q)
  | ev :: rest =>
      let (answer, q1) := handle ev q in
      let (accepted, q2) := play rest q1 in
      (match answer, job_of ev with
       | Some true, Some job => job :: accepted
       | _, _ => accepted
       end, q2)
  end.

(** The jobs of a queue in the order in which the database sees
    them: those begun, then those that wait. *)
Definition schedule (q : PQueue) : list Job := started q ++ waiting q.

End Indexer.

Arguments InsertBlock {OrdhookBlock} block.
Arguments RollBackBlock {OrdhookBlock} block.
Arguments running {OrdhookBlock} _.
Arguments waiting {OrdhookBlock} _.
Arguments started {OrdhookBlock} _.
Arguments idle {OrdhookBlock}.
Arguments size {OrdhookBlock} q.
Arguments add {OrdhookBlock} job q.
Arguments next {OrdhookBlock} q.
Arguments onBlock {OrdhookBlock} block jobQueue.
Arguments onBlockRollBack {OrdhookBlock} block jobQueue.
Arguments Block {OrdhookBlock} block.
Arguments RollBack {OrdhookBlock} block.
Arguments Settled {OrdhookBlock}.
Arguments handle {OrdhookBlock} ev q.
Arguments play {OrdhookBlock} evs q.
Arguments schedule {OrdhookBlock} q.
Arguments tryToStartAnother {OrdhookBlock} q.

End Ordhook.

Import Numeric Brc20PgStore.

(** ** Notions of the specification *)

(** The fractional digits of an amount: the characters after its point. *)
Fixpoint fraction_digits (amt : string) : nat :=
  match amt with
  | EmptyString => O
  | String c r => if Ascii.eqb c "." then String.length r else fraction_digits r
  end.

(** The effective amounts credited to a token so far.  A mint credits
    its effective amount as one balance row; a reserve and a settlement
    write deltas that cancel; so the credited total of a token is the sum
    of all its deltas, which is also the minted supply of
    [getTokenSupply]. *)
Definition effective_minted (deploy_id : N) (db : Db) : Q :=
  qsum (map row_total (rows_of_deploy deploy_id db)).

(** The remaining supply of the specification: max less the effective
    mints. *)
Definition remaining_supply (token : DbBrc20Deploy) (db : Db) : Q :=
  d_max token - effective_minted (d_id token) db.

(** The available balance of an address in a token: the sum of the
    [avail] deltas of its rows. *)
Definition available (addr : string) (deploy_id : N) (db : Db) : Q :=
  qsum (map b_avail_balance
            (filter (fun b => (b_brc20_deploy_id b =? deploy_id)%N)
                    (filter (fun b => address_eqb (b_address b) (Some addr))
                            (brc20_balances db)))).

(** At most one token per lowered ticker. *)
Definition unique_tickers (db : Db) : Prop :=
  NoDup (map (fun d => Str.lower (d_ticker d)) (brc20_deploys db)).

(** Holders as the specification has them: the distinct addresses of the
    token whose deltas sum to more than zero. *)
Definition holder_addresses (deploy_id : N) (db : Db) : list (option string) :=
  let rows := rows_of_deploy deploy_id db in
  filter (fun a => negb (Qle_bool
                           (qsum (map row_total
                                      (filter (fun b => address_eqb (b_address b) a) rows)))
                           0))
         (nodup option_string_dec (map b_address rows)).

(** The deliveries of an inscription seen so far, and its intents. *)
Definition location_count (inscription_id : N) (db : Db) : nat :=
  length (filter (fun l => (l_inscription_id l =? inscription_id)%N) (locations db)).

Definition intents (inscription_id : N) (db : Db) : list DbBrc20Transfer :=
  filter (fun t => (t_inscription_id t =? inscription_id)%N) (brc20_transfers db).

(** ** Rows and states that the operations produce *)

Definition mint_row (inscription_id deploy_id : N) (location : DbLocationInsert)
    (amount : Q) : DbBrc20MintRow :=
  {| m_inscription_id := inscription_id;
     m_brc20_deploy_id := deploy_id;
     m_block_height := block_height location;
     m_tx_id := tx_id location;
     m_address := address location;
     m_amount := amount |}.

Definition balance_row (inscription_id deploy_id height : N) (addr : option string)
    (avail trans : Q) : DbBrc20BalanceRow :=
  {| b_inscription_id := inscription_id;
     b_brc20_deploy_id := deploy_id;
     b_block_height := height;
     b_address := addr;
     b_avail_balance := avail;
     b_trans_balance := trans |}.

Definition transfer_row (id inscription_id deploy_id : N) (location : DbLocationInsert)
    (from : string) (to : option string) (amount : Q) : DbBrc20Transfer :=
  {| t_id := id;
     t_inscription_id := inscription_id;
     t_brc20_deploy_id := deploy_id;
     t_block_height := block_height location;
     t_tx_id := tx_id location;
     t_from_address := from;
     t_to_address := to;
     t_amount := amount |}.

Definition deploy_event (inscription_id id : N) : DbBrc20EventInsert :=
  {| e_inscription_id := inscription_id;
     e_brc20_deploy_id := id;
     e_deploy_id := Some id;
     e_mint_id := None;
     e_transfer_id := None |}.

(** The amount that [insertMint] credits: [BigNumber.min(availSupply,
    amt)], with the supply it computes from the recorded mints. *)
Definition credited (token : DbBrc20Deploy) (a : Q) (db : Db) : Q :=
  let availSupply := d_max token - mintedSupply (d_id token) db in
  if Qle_bool availSupply a then availSupply else a.

(** What [insertTransfer] reads from [getBalances]. *)
Definition available_read (addr tick : string) (db : Db) : Q :=
  match results (getBalances addr (Some [tick]) 1 0 db) with
  | r :: _ => avail_balance r
  | [] => 0
  end.

(** The state after [applyBalanceTransfer]. *)
Definition settled (tr : DbBrc20Transfer) (loc : DbLocationInsert) (db : Db) : Db :=
  update_to_address (t_id tr) (address loc)
    (add_balances
       [balance_row (t_inscription_id tr) (t_brc20_deploy_id tr) (block_height loc)
                    (Some (t_from_address tr)) 0 (- t_amount tr);
        balance_row (t_inscription_id tr) (t_brc20_deploy_id tr) (block_height loc)
                    (address loc) (t_amount tr) 0]
       db).

(** The numbers of a deploy are text that Postgres can read. *)
Definition deploy_numeric (deploy : Brc20Deploy) : bool :=
  match parse (deploy_max deploy),
        match deploy_lim deploy with Some l => parse l | None => Some 0 end,
        parse_int match deploy_dec deploy with Some d => d | None => "18" end
  with
  | Some _, Some _, Some _ => true
  | _, _, _ => false
  end.

(** ** Consistency of the store *)

(** The supply that [insertMint] computes sums the requested amounts of
    the recorded mints.  It agrees with the credited amounts until a mint
    is cut down to the rest of the supply, and from then on the token is
    fully minted and both say so. *)
Definition supply_agrees (db : Db) (d : DbBrc20Deploy) : Prop :=
  mintedSupply (d_id d) db == effective_minted (d_id d) db
  \/ (effective_minted (d_id d) db == d_max d /\ d_max d <= mintedSupply (d_id d) db).

Record consistent (db : Db) : Prop := {
  ids_below : Forall (fun d => (d_id d < deploys_seq db)%N) (brc20_deploys db);
  ids_nodup : NoDup (map d_id (brc20_deploys db));
  tickers_nodup : unique_tickers db;
  mints_ref : Forall (fun m => (m_brc20_deploy_id m < deploys_seq db)%N) (brc20_mints db);
  balances_ref :
    Forall (fun b => (b_brc20_deploy_id b < deploys_seq db)%N) (brc20_balances db);
  transfers_ref :
    Forall (fun t => (t_brc20_deploy_id t < deploys_seq db)%N) (brc20_transfers db);
  supply_inv : Forall (supply_agrees db) (brc20_deploys db)
}.

(** ** The fee-spend settlement of the specification *)

(** A settlement that burns: only the sender's release is written, the
    intent gets a sentinel receiver and the log gets an event. *)
Definition burns (tr : DbBrc20Transfer) (loc : DbLocationInsert) (db db' : Db) : Prop :=
  brc20_balances db'
  = brc20_balances db
    ++ [balance_row (t_inscription_id tr) (t_brc20_deploy_id tr) (block_height loc)
                    (Some (t_from_address tr)) 0 (- t_amount tr)]
  /\ (exists sentinel,
        Forall (fun t => t_id t = t_id tr -> t_to_address t = Some sentinel)
               (brc20_transfers db'))
  /\ length (brc20_events db') = S (length (brc20_events db)).

(** ** Scenarios *)

Definition at_height (h : N) (addr : option string) : DbLocationInsert :=
  {| genesis_id := "genesis"; block_height := h; tx_id := "tx"; address := addr |}.

Definition deploy_ordi : Brc20Deploy :=
  {| deploy_tick := "ordi"; deploy_max := "21000000";
     deploy_lim := Some "1000"; deploy_dec := None |}.

Definition deploy_capped : Brc20Deploy :=
  {| deploy_tick := "capd"; deploy_max := "100";
     deploy_lim := None; deploy_dec := None |}.

Definition mint_of (tick amt : string) : Brc20Mint :=
  {| mint_tick := tick; mint_amt := amt |}.

Definition transfer_of (tick amt : string) : Brc20Transfer :=
  {| transfer_tick := tick; transfer_amt := amt |}.

(** The state after a run from the empty store. *)
Definition state_after (not_null : bool) (evs : list Delivery) : Db :=
  match run evs (empty_db not_null) with
  | Ok db => db
  | Throw _ => empty_db not_null
  end.

(** "ordi" deployed at height 100, nothing minted. *)
Definition ordi_deployed : list Delivery :=
  [Genesis 1 (Some (OpDeploy deploy_ordi)) (at_height 100 (Some "A"))].

(** Scenario 1: then 500 minted by A at height 101. *)
Definition ordi_minted : list Delivery :=
  ordi_deployed
  ++ [Genesis 2 (Some (OpMint (mint_of "ordi" "500"))) (at_height 101 (Some "A"))].

(** Scenario 3: max 100 and one mint of 80. *)
Definition capped_minted : list Delivery :=
  [Genesis 1 (Some (OpDeploy deploy_capped)) (at_height 100 (Some "A"));
   Genesis 2 (Some (OpMint (mint_of "capd" "80"))) (at_height 101 (Some "A"))].

(** Scenario 4: A holds 1000, reserves 300 on inscription 3, which then
    moves to B. *)
Definition ordi_held : list Delivery :=
  ordi_deployed
  ++ [Genesis 2 (Some (OpMint (mint_of "ordi" "1000"))) (at_height 101 (Some "A"))].

Definition ordi_reserved : list Delivery :=
  ordi_held
  ++ [Genesis 3 (Some (OpTransfer (transfer_of "ordi" "300"))) (at_height 102 (Some "A"))].

Definition ordi_sent : list Delivery :=
  ordi_reserved ++ [Transfer 3 (at_height 104 (Some "B"))].

Definition db_ordi_deployed : Db := Eval vm_compute in state_after true ordi_deployed.
Definition db_ordi_minted : Db := Eval vm_compute in state_after true ordi_minted.
Definition db_capped_minted : Db := Eval vm_compute in state_after true capped_minted.
Definition db_ordi_held : Db := Eval vm_compute in state_after true ordi_held.
Definition db_ordi_reserved : Db := Eval vm_compute in state_after true ordi_reserved.
Definition db_ordi_sent : Db := Eval vm_compute in state_after true ordi_sent.

(** The token rows of the scenarios and the intent of scenario 4. *)
Definition token_ordi : DbBrc20Deploy :=
  {| d_id := 1; d_inscription_id := 1; d_block_height := 100; d_tx_id := "tx";
     d_address := "A"; d_ticker := "ordi"; d_max := 21000000;
     d_limit := Some 1000; d_decimals := 18 |}.

Definition token_capped : DbBrc20Deploy :=
  {| d_id := 1; d_inscription_id := 1; d_block_height := 100; d_tx_id := "tx";
     d_address := "A"; d_ticker := "capd"; d_max := 100;
     d_limit := None; d_decimals := 18 |}.

Definition intent_300 : DbBrc20Transfer :=
  transfer_row 1 3 1 (at_height 102 (Some "A")) "A" None 300.

(** Scenario 3 after its second mint, of 50 by B. *)
Definition db_capped_full : Db :=
  Eval vm_compute in
    match insertMint (mint_of "capd" "50") 3 (at_height 102 (Some "B")) db_capped_minted with
    | Ok db => db
    | Throw _ => db_capped_minted
    end.

(** Inscription 3 of scenario 4 spent as a fee instead: the state in
    which [applyBalanceTransfer] then runs, with the [address] columns
    nullable or not. *)
Definition fee_location : DbLocationInsert := at_height 104 None.

Definition db_fee_spent (not_null : bool) : Db :=
  insert_location 3 fee_location (state_after not_null ordi_reserved).

(** ** The other queries of the store *)

(** [DbBrc20Holder]: one row of [getTokenHolders]. *)
Record DbBrc20Holder : Set := {
  holder_address : option string;
  holder_total_balance : Q
}.

(** [ORDER BY total_balance DESC], by insertion; rows with equal totals
    come out in one of the orders that SQL allows. *)
Fixpoint insert_desc (h : DbBrc20Holder) (l : list DbBrc20Holder)
  : list DbBrc20Holder :=
  match l with
  | [] => [h]
  | x :: rest =>
      if Qle_bool (holder_total_balance x) (holder_total_balance h)
      then h :: l
      else x :: insert_desc h rest
  end.

Definition order_by_total_desc (l : list DbBrc20Holder) : list DbBrc20Holder :=
  fold_right insert_desc [] l.

(** The groups of [SELECT address, SUM(avail_balance + trans_balance) ...
    GROUP BY address] for one deploy. *)
Definition holder_groups (deploy_id : N) (db : Db) : list DbBrc20Holder :=
  let rows := rows_of_deploy deploy_id db in
  map (fun a =>
         {| holder_address := a;
            holder_total_balance :=
              qsum (map row_total
                        (filter (fun b => address_eqb (b_address b) a) rows)) |})
      (nodup option_string_dec (map b_address rows)).

(** [getTokenHolders]; [None] is the [undefined] of an unknown ticker. *)
Definition getTokenHolders (ticker : string) (limit offset : nat) (db : Db)
  : option (DbPaginatedResult DbBrc20Holder) :=
  match getDeploy ticker db with
  | None => None
  | Some deploy =>
      let groups := holder_groups (d_id deploy) db in
      let page := firstn limit (skipn offset (order_by_total_desc groups)) in
      Some {| total := match page with [] => O | _ => length groups end;
              results := page |}
  end.





(** ** Balances of an address *)





(** The supply of every token is within its bounds. *)
Definition capped (db : Db) : Prop :=
  Forall (fun d => 0 <= effective_minted (d_id d) db
                   /\ effective_minted (d_id d) db <= d_max d)
         (brc20_deploys db).

(** A delivery that mints. *)
Definition is_mint (ev : Delivery) : bool :=
  match ev with
  | Genesis _ (Some (OpMint _)) _ => true
  | _ => false
  end.

(** A transfer row without its receiver. *)
Definition without_receiver (t : DbBrc20Transfer) : DbBrc20Transfer :=
  set_to_address None t.

(** Scenario 3 carried on: the mint of 50 by B takes the last 20. *)
Definition capped_full : list Delivery :=
  capped_minted
  ++ [Genesis 3 (Some (OpMint (mint_of "capd" "50"))) (at_height 102 (Some "B"))].

Definition db_capped_out : Db := Eval vm_compute in state_after true capped_full.


(** ** Tactics *)

Ltac inv H := inversion H; subst; clear H.

(** ** Amounts as text *)

Lemma split_nonempty sep s : Str.split sep s <> [].
Proof.
  destruct s as [|a r]; simpl; [discriminate|].
  destruct (Ascii.eqb a sep); [discriminate|].
  destruct (Str.split sep r); discriminate.
Qed.

Lemma split_single sep s f : Str.split sep s = [f] -> f = s /\ Str.includes sep s = false.
Proof.
  revert f. induction s as [|a r IH]; simpl; intros f H.
  - injection H as <-. auto.
  - destruct (Ascii.eqb a sep) eqn:E.
    + injection H as _ H. now apply split_nonempty in H.
    + destruct (Str.split sep r) as [|h t] eqn:S; [now apply split_nonempty in S|].
      injection H as <- ->. destruct (IH h eq_refl) as [-> ->]. auto.
Qed.

Lemma split_pair s i f :
  Str.split "." s = [i; f] ->
  Str.includes "." s = true /\ fraction_digits s = String.length f.
Proof.
  revert i. induction s as [|a r IH]; simpl; intros i H; [discriminate|].
  destruct (Ascii.eqb a ".") eqn:E.
  - injection H as _ H. apply split_single in H as [-> _]. auto.
  - destruct (Str.split "." r) as [|h t] eqn:S; [discriminate|].
    injection H as _ ->. destruct (IH h eq_refl) as [-> ->]. auto.
Qed.

Lemma split_no_point s f :
  Str.split "." s = [f] -> fraction_digits s = O.
Proof.
  revert f. induction s as [|a r IH]; simpl; intros f H; [reflexivity|].
  destruct (Ascii.eqb a ".") eqn:E.
  - injection H as _ H. now apply split_nonempty in H.
  - destruct (Str.split "." r) as [|h t] eqn:S; [now apply split_nonempty in S|].
    injection H as _ ->. now apply (IH h).
Qed.

Lemma exceeds_decimals_numeral amt a decimals :
  Numeric.parse amt = Some a ->
  exceeds_decimals amt decimals = (decimals <? N.of_nat (fraction_digits amt))%N.
Proof.
  unfold Numeric.parse, exceeds_decimals. intros H.
  destruct (Str.split "." amt) as [|i [|f [|x l]]] eqn:S; try discriminate.
  - destruct (split_single _ _ _ S) as [_ ->].
    rewrite (split_no_point _ _ S). simpl. symmetry. apply N.ltb_ge. lia.
  - destruct (split_pair _ _ _ S) as [-> ->]. reflexivity.
Qed.

(** ** Sums and lists *)

Lemma qsum_app l1 l2 : qsum (l1 ++ l2) == qsum l1 + qsum l2.
Proof.
  induction l1 as [|x l IH]; simpl.
  - lra.
  - rewrite IH. lra.
Qed.

Lemma NoDup_map_injective {A B : Type} (f : A -> B) (l : list A) x y :
  NoDup (map f l) -> In x l -> In y l -> f x = f y -> x = y.
Proof.
  induction l as [|a l IH]; simpl; intros ND Hx Hy E; [contradiction|].
  inversion ND as [|? ? Hnotin ND']; subst.
  destruct Hx as [-> | Hx], Hy as [-> | Hy]; auto.
  - exfalso. apply Hnotin. rewrite E. now apply in_map.
  - exfalso. apply Hnotin. rewrite <- E. now apply in_map.
Qed.

Lemma getDeploy_In ticker db token :
  getDeploy ticker db = Some token -> In token (brc20_deploys db).
Proof. unfold getDeploy. intros H. now apply find_some in H. Qed.

Lemma getDeploy_ticker ticker db token :
  getDeploy ticker db = Some token -> Str.lower (d_ticker token) = Str.lower ticker.
Proof.
  unfold getDeploy. intros H. apply find_some in H as [_ H].
  now apply String.eqb_eq.
Qed.

(** What a statement does to the two sums of a token. *)

Lemma mintedSupply_add_mint id m db :
  mintedSupply id (add_mint m db)
  == mintedSupply id db + (if (m_brc20_deploy_id m =? id)%N then m_amount m else 0).
Proof.
  unfold mintedSupply. simpl. rewrite filter_app, map_app, qsum_app. simpl.
  destruct (m_brc20_deploy_id m =? id)%N; simpl; lra.
Qed.

Lemma effective_minted_add_balances id rows db :
  effective_minted id (add_balances rows db)
  == effective_minted id db
     + qsum (map row_total (filter (fun b => (b_brc20_deploy_id b =? id)%N) rows)).
Proof.
  unfold effective_minted, rows_of_deploy. simpl.
  now rewrite filter_app, map_app, qsum_app.
Qed.

(** ** What an operation writes *)

Lemma insertDeploy_effect deploy iid loc db db' :
  insertDeploy deploy iid loc db = Ok db' ->
  db' = db
  \/ exists row,
       ticker_taken (deploy_tick deploy) db = false
       /\ d_id row = deploys_seq db
       /\ d_ticker row = deploy_tick deploy
       /\ db' = insert_event (deploy_event iid (deploys_seq db)) (add_deploy row db).
Proof.
  unfold insertDeploy. intros H.
  destruct (truthy (address loc)) as [addr|]; [|inv H; auto].
  destruct (parse (deploy_max deploy)) as [mx|]; simpl in H; [|discriminate].
  destruct (deploy_lim deploy) as [l|]; simpl in H.
  - destruct (parse l) as [lv|]; simpl in H; [|discriminate].
    destruct (parse_int _) as [dc|]; simpl in H; [|discriminate].
    unfold insert_deploy_on_conflict_do_nothing in H.
    destruct (ticker_taken _ db) eqn:T; inv H; auto.
    right. eexists. split; [reflexivity|]. split; [|split; [|reflexivity]]; reflexivity.
  - destruct (parse_int _) as [dc|]; simpl in H; [|discriminate].
    unfold insert_deploy_on_conflict_do_nothing in H.
    destruct (ticker_taken _ db) eqn:T; inv H; auto.
    right. eexists. split; [reflexivity|]. split; [|split; [|reflexivity]]; reflexivity.
Qed.

Lemma insertMint_effect mint iid loc db db' :
  insertMint mint iid loc db = Ok db' ->
  db' = db
  \/ exists token a,
       getDeploy (mint_tick mint) db = Some token
       /\ parse (mint_amt mint) = Some a
       /\ 0 < d_max token - mintedSupply (d_id token) db
       /\ db' = add_balances
                  [balance_row iid (d_id token) (block_height loc) (address loc)
                               (credited token a db) 0]
                  (add_mint (mint_row iid (d_id token) loc a) db).
Proof.
  unfold insertMint. intros H.
  destruct (getDeploy _ db) as [token|] eqn:G; [|inv H; auto].
  destruct (match d_limit token with Some _ => _ | None => _ end); [inv H; auto|].
  destruct (exceeds_decimals _ _); [inv H; auto|].
  simpl in H.
  destruct (Qle_bool (d_max token - mintedSupply (d_id token) db) 0) eqn:L; [inv H; auto|].
  unfold of_string in H.
  destruct (parse (mint_amt mint)) as [a|]; simpl in H; [|discriminate].
  unfold insert_mint in H. simpl in H.
  destruct (address_accepted db (address loc)) eqn:A; simpl in H; [|discriminate].
  unfold insert_balances in H. simpl in H.
  assert (A' : address_accepted (add_mint (mint_row iid (d_id token) loc a) db)
                 (address loc) = true) by exact A.
  unfold mint_row in A'. rewrite A' in H. simpl in H. inv H.
  right. exists token, a. repeat split; auto.
  apply Qnot_le_lt. intros C. apply Qle_bool_iff in C. congruence.
Qed.

Lemma insertTransfer_effect transfer iid loc db db' :
  insertTransfer transfer iid loc db = Ok db' ->
  db' = db
  \/ exists addr token a,
       truthy (address loc) = Some addr
       /\ getDeploy (transfer_tick transfer) db = Some token
       /\ parse (transfer_amt transfer) = Some a
       /\ a <= available_read addr (transfer_tick transfer) db
       /\ db' = add_balances
                  [balance_row iid (d_id token) (block_height loc) (Some addr) (- a) a]
                  (insert_transfer iid (d_id token) loc addr a db).
Proof.
  unfold insertTransfer. intros H.
  destruct (truthy (address loc)) as [addr|] eqn:A; [|inv H; auto].
  destruct (getDeploy _ db) as [token|] eqn:G; [|inv H; auto].
  fold (available_read addr (transfer_tick transfer) db) in H.
  unfold of_string in H.
  destruct (parse (transfer_amt transfer)) as [a|]; simpl in H; [|discriminate].
  destruct (Qle_bool a _) eqn:L; simpl in H; [|inv H; auto].
  inv H. right. exists addr, token, a. repeat split; auto.
  now apply Qle_bool_iff.
Qed.

Lemma applyBalanceTransfer_effect tr loc db db' :
  applyBalanceTransfer tr loc db = Ok db' ->
  address_accepted db (address loc) = true
  /\ db' = update_to_address (t_id tr) (address loc)
             (add_balances
                [balance_row (t_inscription_id tr) (t_brc20_deploy_id tr)
                             (block_height loc) (Some (t_from_address tr))
                             0 (- t_amount tr);
                 balance_row (t_inscription_id tr) (t_brc20_deploy_id tr)
                             (block_height loc) (address loc)
                             (t_amount tr) 0]
                db).
Proof.
  unfold applyBalanceTransfer, insert_balances. simpl. intros H.
  destruct (address_accepted db (address loc)); simpl in H; [|discriminate].
  inv H. auto.
Qed.

Lemma In_firstn {A : Type} (n : nat) (l : list A) x : In x (firstn n l) -> In x l.
Proof.
  revert l. induction n as [|n IH]; intros [|a l]; simpl; try contradiction.
  intros [->|H]; auto.
Qed.

Lemma NoDup_snoc {A : Type} (l : list A) a : NoDup l -> ~ In a l -> NoDup (l ++ [a]).
Proof.
  intros ND H. apply NoDup_app; auto.
  - constructor; [intros []|constructor].
  - intros x Hx [<-|[]]. auto.
Qed.

Lemma filter_none {A : Type} (p : A -> bool) (l : list A) :
  Forall (fun x => p x = false) l -> filter p l = [].
Proof.
  induction 1 as [|x l Hx _ IH]; simpl; [reflexivity|]. now rewrite Hx.
Qed.

Lemma transfers_of_inscription_In iid db t :
  In t (transfers_of_inscription iid db) -> In t (brc20_transfers db).
Proof.
  unfold transfers_of_inscription. intros H.
  apply In_firstn in H. apply in_flat_map in H as (l & _ & H).
  now apply filter_In in H.
Qed.

Lemma insertOperationTransfer_effect iid loc db db' :
  insertOperationTransfer iid loc db = Ok db' ->
  db' = db
  \/ exists tr,
       length (transfers_of_inscription iid db) = 2%nat
       /\ nth_error (transfers_of_inscription iid db) 0 = Some tr
       /\ applyBalanceTransfer tr loc db = Ok db'.
Proof.
  unfold insertOperationTransfer. intros H.
  destruct (transfers_of_inscription iid db) as [|t1 [|t2 [|t3 l]]]; try (inv H; auto; fail).
  right. exists t1. auto.
Qed.

(** ** Consistency is kept *)

Lemma consistent_empty not_null : consistent (empty_db not_null).
Proof. constructor; simpl; constructor. Qed.

Lemma consistent_insert_location iid loc db :
  consistent db -> consistent (insert_location iid loc db).
Proof. intros []. constructor; assumption. Qed.

Lemma ticker_free ticker db :
  ticker_taken ticker db = false ->
  ~ In (Str.lower ticker) (map (fun d => Str.lower (d_ticker d)) (brc20_deploys db)).
Proof.
  unfold ticker_taken. intros T H. apply in_map_iff in H as (d & E & Hd).
  assert (X : existsb (fun d => String.eqb (Str.lower (d_ticker d)) (Str.lower ticker))
                      (brc20_deploys db) = true).
  { apply existsb_exists. exists d. split; auto. now apply String.eqb_eq. }
  congruence.
Qed.

Lemma fresh_mintedSupply db :
  Forall (fun m => (m_brc20_deploy_id m < deploys_seq db)%N) (brc20_mints db) ->
  mintedSupply (deploys_seq db) db = 0.
Proof.
  intros H. unfold mintedSupply. rewrite filter_none; [reflexivity|].
  eapply Forall_impl; [|exact H]. simpl. intros m Hm. apply N.eqb_neq. lia.
Qed.

Lemma fresh_effective_minted db :
  Forall (fun b => (b_brc20_deploy_id b < deploys_seq db)%N) (brc20_balances db) ->
  effective_minted (deploys_seq db) db = 0.
Proof.
  intros H. unfold effective_minted, rows_of_deploy. rewrite filter_none; [reflexivity|].
  eapply Forall_impl; [|exact H]. simpl. intros m Hm. apply N.eqb_neq. lia.
Qed.

Lemma consistent_add_deploy iid row db :
  consistent db ->
  ticker_taken (d_ticker row) db = false ->
  d_id row = deploys_seq db ->
  consistent (insert_event (deploy_event iid (deploys_seq db)) (add_deploy row db)).
Proof.
  intros [Hb Hn Ht Hm Hbal Htr Hs] T E.
  constructor; simpl.
  - apply Forall_app. split.
    + eapply Forall_impl; [|exact Hb]. simpl. intros; lia.
    + constructor; [lia|constructor].
  - rewrite map_app. simpl. apply NoDup_snoc; auto.
    intros H. apply in_map_iff in H as (d & Ed & Hd).
    rewrite Forall_forall in Hb. specialize (Hb d Hd). lia.
  - unfold unique_tickers in *. simpl. rewrite map_app. simpl.
    apply NoDup_snoc; auto. now apply ticker_free.
  - eapply Forall_impl; [|exact Hm]. simpl. intros; lia.
  - eapply Forall_impl; [|exact Hbal]. simpl. intros; lia.
  - eapply Forall_impl; [|exact Htr]. simpl. intros; lia.
  - apply Forall_app. split.
    + exact Hs.
    + constructor; [|constructor]. left.
      change (mintedSupply (d_id row) db == effective_minted (d_id row) db).
      rewrite E, fresh_mintedSupply, fresh_effective_minted by assumption. reflexivity.
Qed.

Lemma consistent_add_transfer row db :
  consistent db ->
  (t_brc20_deploy_id row < deploys_seq db)%N ->
  consistent (add_transfer row db).
Proof.
  intros [Hb Hn Ht Hm Hbal Htr Hs] Hrow. constructor; simpl; auto.
  apply Forall_app. split; auto.
Qed.

Lemma consistent_update_to_address id to db :
  consistent db -> consistent (update_to_address id to db).
Proof.
  intros [Hb Hn Ht Hm Hbal Htr Hs]. constructor; simpl; auto.
  apply Forall_map. eapply Forall_impl; [|exact Htr]. simpl.
  intros t Hlt. now destruct (t_id t =? id)%N.
Qed.

(** Rows whose deltas cancel for every token leave the sums alone. *)
Lemma consistent_add_balances_neutral rows db :
  consistent db ->
  Forall (fun b => (b_brc20_deploy_id b < deploys_seq db)%N) rows ->
  (forall id,
      qsum (map row_total (filter (fun b => (b_brc20_deploy_id b =? id)%N) rows)) == 0) ->
  consistent (add_balances rows db).
Proof.
  intros [Hb Hn Ht Hm Hbal Htr Hs] Hrows Hzero. constructor; simpl; auto.
  - apply Forall_app. split; auto.
  - eapply Forall_impl; [|exact Hs]. intros d. unfold supply_agrees.
    rewrite (effective_minted_add_balances (d_id d) rows db), (Hzero (d_id d)).
    change (mintedSupply (d_id d) (add_balances rows db)) with (mintedSupply (d_id d) db).
    intros [H|[H1 H2]]; [left|right; split]; lra.
Qed.

Lemma consistent_mint iid loc token a db ticker :
  consistent db ->
  getDeploy ticker db = Some token ->
  0 < d_max token - mintedSupply (d_id token) db ->
  consistent
    (add_balances
       [balance_row iid (d_id token) (block_height loc) (address loc) (credited token a db) 0]
       (add_mint (mint_row iid (d_id token) loc a) db)).
Proof.
  intros C G Hpos. pose proof (getDeploy_In _ _ _ G) as Hin.
  destruct C as [Hb Hn Ht Hm Hbal Htr Hs].
  assert (Hid : (d_id token < deploys_seq db)%N).
  { rewrite Forall_forall in Hb. now apply Hb. }
  constructor; simpl; auto.
  - apply Forall_app. split; auto.
  - apply Forall_app. split; auto.
  - apply Forall_forall. intros d Hd.
    rewrite Forall_forall in Hs. specialize (Hs d Hd). unfold supply_agrees in *.
    rewrite effective_minted_add_balances.
    change (effective_minted (d_id d) (add_mint (mint_row iid (d_id token) loc a) db))
      with (effective_minted (d_id d) db).
    change (mintedSupply (d_id d) (add_balances _ (add_mint (mint_row iid (d_id token) loc a) db)))
      with (mintedSupply (d_id d) (add_mint (mint_row iid (d_id token) loc a) db)).
    rewrite mintedSupply_add_mint. simpl.
    destruct (N.eqb_spec (d_id token) (d_id d)) as [E|NE].
    + assert (d = token) by (apply (NoDup_map_injective d_id (brc20_deploys db)); auto). subst d.
      simpl. unfold row_total. simpl. unfold credited.
      destruct (Qle_bool _ a) eqn:L.
      * apply Qle_bool_iff in L. destruct Hs as [H|[H1 H2]]; [|lra].
        right. split; lra.
      * assert (a < d_max token - mintedSupply (d_id token) db).
        { apply Qnot_le_lt. intros X. apply Qle_bool_iff in X. congruence. }
        destruct Hs as [H1|[H1 H2]]; [|lra]. left. lra.
    + simpl. destruct Hs as [H|[H1 H2]]; [left|right; split]; lra.
Qed.

Lemma consistent_insertDeploy deploy iid loc db db' :
  consistent db -> insertDeploy deploy iid loc db = Ok db' -> consistent db'.
Proof.
  intros C H. apply insertDeploy_effect in H as [->|(row & T & E & Etick & ->)]; auto.
  apply consistent_add_deploy; auto. now rewrite Etick.
Qed.

Lemma consistent_insertMint mint iid loc db db' :
  consistent db -> insertMint mint iid loc db = Ok db' -> consistent db'.
Proof.
  intros C H. apply insertMint_effect in H as [->|(token & a & G & _ & Hpos & ->)]; auto.
  eapply consistent_mint; eauto.
Qed.

Lemma consistent_insertTransfer transfer iid loc db db' :
  consistent db -> insertTransfer transfer iid loc db = Ok db' -> consistent db'.
Proof.
  intros C H.
  apply insertTransfer_effect in H as [->|(addr & token & a & _ & G & _ & _ & ->)]; auto.
  assert (Hid : (d_id token < deploys_seq db)%N).
  { pose proof (ids_below _ C) as Hb. rewrite Forall_forall in Hb.
    apply Hb. eapply getDeploy_In; eauto. }
  apply consistent_add_balances_neutral.
  - now apply consistent_add_transfer.
  - constructor; [exact Hid|constructor].
  - intros id. simpl. destruct (d_id token =? id)%N; simpl; unfold row_total; simpl; lra.
Qed.

Lemma consistent_applyBalanceTransfer tr loc db db' :
  consistent db -> In tr (brc20_transfers db) ->
  applyBalanceTransfer tr loc db = Ok db' -> consistent db'.
Proof.
  intros C Hin H. apply applyBalanceTransfer_effect in H as [_ ->].
  assert (Hid : (t_brc20_deploy_id tr < deploys_seq db)%N).
  { pose proof (transfers_ref _ C) as Hb. rewrite Forall_forall in Hb. now apply Hb. }
  apply consistent_update_to_address, consistent_add_balances_neutral.
  - exact C.
  - constructor; [exact Hid|]. constructor; [exact Hid|constructor].
  - intros id. simpl. destruct (t_brc20_deploy_id tr =? id)%N; simpl; unfold row_total; simpl; lra.
Qed.

Lemma consistent_insertOperationGenesis brc20 iid loc db db' :
  consistent db -> insertOperationGenesis brc20 iid loc db = Ok db' -> consistent db'.
Proof.
  intros C H. unfold insertOperationGenesis in H.
  destruct brc20 as [op|]; [|now inv H].
  destruct (truthy (address loc)); [|now inv H].
  destruct op.
  - eapply consistent_insertDeploy; eauto.
  - eapply consistent_insertMint; eauto.
  - eapply consistent_insertTransfer; eauto.
Qed.

Lemma consistent_insertOperationTransfer iid loc db db' :
  consistent db -> insertOperationTransfer iid loc db = Ok db' -> consistent db'.
Proof.
  intros C H.
  apply insertOperationTransfer_effect in H as [->|(tr & _ & Hnth & H)]; auto.
  eapply consistent_applyBalanceTransfer; eauto.
  apply (transfers_of_inscription_In iid). eapply nth_error_In; eauto.
Qed.

(** Every state that the store can reach is consistent. *)
Lemma reachable_consistent db : reachable db -> consistent db.
Proof.
  induction 1 as [not_null|iid loc db _ IH|brc20 iid loc db db' _ IH H|iid loc db db' _ IH H].
  - apply consistent_empty.
  - now apply consistent_insert_location.
  - eapply consistent_insertOperationGenesis; eauto.
  - eapply consistent_insertOperationTransfer; eauto.
Qed.

(** A run of deliveries stays within the reachable states. *)
Lemma reachable_deliver ev db db' :
  reachable db -> deliver ev db = Ok db' -> reachable db'.
Proof.
  intros R H. destruct ev as [iid brc20 loc|iid loc]; simpl in H.
  - eapply reachable_genesis; [|exact H]. now apply reachable_location.
  - eapply reachable_transfer; [|exact H]. now apply reachable_location.
Qed.

Lemma reachable_run evs db db' :
  reachable db -> run evs db = Ok db' -> reachable db'.
Proof.
  revert db. induction evs as [|ev evs IH]; simpl; intros db R H.
  - now inv H.
  - destruct (deliver ev db) as [db1|] eqn:D; simpl in H; [|discriminate].
    eapply IH; [|exact H]. eapply reachable_deliver; eauto.
Qed.

(** ** The credited total of a token *)

(** Only a mint moves the credited total of a token, and by the amount
    it credits: this is what makes the sum of the deltas of a token the
    sum of its effective mints. *)
Lemma effective_minted_insertMint mint iid loc db db' id :
  insertMint mint iid loc db = Ok db' ->
  db' = db
  \/ exists token a,
       getDeploy (mint_tick mint) db = Some token
       /\ parse (mint_amt mint) = Some a
       /\ effective_minted id db'
          == effective_minted id db
             + (if (d_id token =? id)%N then credited token a db else 0).
Proof.
  intros H. apply insertMint_effect in H as [->|(token & a & G & P & _ & ->)]; auto.
  right. exists token, a. repeat split; auto.
  rewrite effective_minted_add_balances. simpl.
  change (effective_minted id (add_mint (mint_row iid (d_id token) loc a) db))
    with (effective_minted id db).
  destruct (d_id token =? id)%N; simpl; unfold row_total; simpl; lra.
Qed.

Lemma effective_minted_insertDeploy deploy iid loc db db' id :
  insertDeploy deploy iid loc db = Ok db' ->
  effective_minted id db' = effective_minted id db.
Proof.
  intros H. apply insertDeploy_effect in H as [->|(row & _ & _ & _ & ->)]; reflexivity.
Qed.

Lemma effective_minted_insertTransfer transfer iid loc db db' id :
  insertTransfer transfer iid loc db = Ok db' ->
  effective_minted id db' == effective_minted id db.
Proof.
  intros H.
  apply insertTransfer_effect in H as [->|(addr & token & a & _ & _ & _ & _ & ->)];
    [reflexivity|].
  rewrite effective_minted_add_balances. simpl.
  change (effective_minted id (insert_transfer iid (d_id token) loc addr a db))
    with (effective_minted id db).
  destruct (d_id token =? id)%N; simpl; unfold row_total; simpl; lra.
Qed.

Lemma effective_minted_insertOperationTransfer iid loc db db' id :
  insertOperationTransfer iid loc db = Ok db' ->
  effective_minted id db' == effective_minted id db.
Proof.
  intros H. apply insertOperationTransfer_effect in H as [->|(tr & _ & _ & H)];
    [reflexivity|].
  apply applyBalanceTransfer_effect in H as [_ ->].
  change (effective_minted id (update_to_address (t_id tr) (address loc) ?d))
    with (effective_minted id d).
  rewrite effective_minted_add_balances. simpl.
  destruct (t_brc20_deploy_id tr =? id)%N; simpl; unfold row_total; simpl; lra.
Qed.

(** In a consistent store the supply that [insertMint] computes from the
    requested amounts and the supply left after the credited amounts are
    on the same side of zero, and equal when positive. *)
Lemma remaining_supply_agrees db token :
  consistent db -> In token (brc20_deploys db) ->
  (d_max token - mintedSupply (d_id token) db <= 0 <-> remaining_supply token db <= 0)
  /\ (0 < remaining_supply token db ->
      d_max token - mintedSupply (d_id token) db == remaining_supply token db).
Proof.
  intros C Hin. pose proof (supply_inv _ C) as Hs.
  rewrite Forall_forall in Hs. specialize (Hs token Hin).
  unfold supply_agrees, remaining_supply in *.
  destruct Hs as [H|[H1 H2]]; split; try split; intros; lra.
Qed.

(** ** Mints *)

Lemma credited_min token a db r :
  d_max token - mintedSupply (d_id token) db == r ->
  credited token a db == Qmin a r.
Proof.
  intros E. unfold credited.
  destruct (Qle_bool _ a) eqn:L.
  - apply Qle_bool_iff in L. rewrite Q.min_r; lra.
  - assert (a < d_max token - mintedSupply (d_id token) db).
    { apply Qnot_le_lt. intros X. apply Qle_bool_iff in X. congruence. }
    rewrite Q.min_l; lra.
Qed.

Lemma Qle_bool_false x y : Qle_bool x y = false <-> y < x.
Proof.
  split; intros H.
  - apply Qnot_le_lt. intros X. apply Qle_bool_iff in X. congruence.
  - destruct (Qle_bool x y) eqn:L; auto. apply Qle_bool_iff in L. lra.
Qed.

(** C1.  A mint on a deployed token that passes the limit and the
    decimals tests is decided by the remaining supply, max less the
    effective amounts credited so far: it is rejected, with the store
    unchanged, when nothing remains, and otherwise the mint row keeps the
    requested amount and the balance row credits the smaller of the
    requested amount and what remains.  The code takes the supply from
    the requested amounts of the recorded mints; in every state that the
    store can reach the two agree wherever the difference shows. *)
Theorem insertMint_remaining_supply mint iid loc db token a addr :
  reachable db ->
  getDeploy (mint_tick mint) db = Some token ->
  parse (mint_amt mint) = Some a ->
  (forall limit, d_limit token = Some limit -> a <= limit) ->
  (N.of_nat (fraction_digits (mint_amt mint)) <= d_decimals token)%N ->
  address loc = Some addr ->
  (remaining_supply token db <= 0 -> insertMint mint iid loc db = Ok db)
  /\ (0 < remaining_supply token db ->
      exists effective,
        effective == Qmin a (remaining_supply token db)
        /\ insertMint mint iid loc db
           = Ok (add_balances
                   [balance_row iid (d_id token) (block_height loc) (Some addr) effective 0]
                   (add_mint (mint_row iid (d_id token) loc a) db))).
Proof.
  intros R G P Hlim Hdec A.
  apply reachable_consistent in R.
  destruct (remaining_supply_agrees db token R (getDeploy_In _ _ _ G)) as [Hle Hpos].
  destruct loc as [g h tx oa]; simpl in A; subst oa.
  unfold insertMint. rewrite G. unfold of_string. rewrite P.
  replace (match d_limit token with Some limit => isGreaterThan (Some a) (of_Q limit) | None => false end) with false.
  2:{ destruct (d_limit token) as [l|] eqn:El; auto. simpl. symmetry.
      apply negb_false_iff, Qle_bool_iff. auto. }
  rewrite (exceeds_decimals_numeral _ _ _ P).
  replace (d_decimals token <? N.of_nat (fraction_digits (mint_amt mint)))%N with false
    by (symmetry; apply N.ltb_ge; lia).
  simpl. split.
  - intros H. apply Hle in H. apply Qle_bool_iff in H. now rewrite H.
  - intros H. exists (credited token a db). split.
    + apply credited_min. auto.
    + assert (L : Qle_bool (d_max token - mintedSupply (d_id token) db) 0 = false).
      { apply Qle_bool_false. rewrite (Hpos H). exact H. }
      rewrite L. reflexivity.
Qed.

(** C7.  A mint is rejected, the store unchanged, when the token is not
    deployed, when the token has a limit and the requested amount is
    above it, or when the amount has more fractional digits than the
    token has decimals. *)
Theorem insertMint_rejects mint iid loc db :
  getDeploy (mint_tick mint) db = None
  \/ (exists token limit a,
        getDeploy (mint_tick mint) db = Some token
        /\ d_limit token = Some limit
        /\ parse (mint_amt mint) = Some a
        /\ limit < a)
  \/ (exists token a,
        getDeploy (mint_tick mint) db = Some token
        /\ parse (mint_amt mint) = Some a
        /\ (d_decimals token < N.of_nat (fraction_digits (mint_amt mint)))%N) ->
  insertMint mint iid loc db = Ok db.
Proof.
  unfold insertMint.
  intros [G | [(token & limit & a & G & L & P & H) | (token & a & G & P & H)]];
    rewrite G; [reflexivity| |].
  - rewrite L. unfold of_string. rewrite P. simpl.
    rewrite (proj2 (Qle_bool_false a limit) H). reflexivity.
  - destruct (match d_limit token with Some _ => _ | None => _ end); [reflexivity|].
    rewrite (exceeds_decimals_numeral _ _ _ P).
    rewrite (proj2 (N.ltb_lt _ _) H). reflexivity.
Qed.

(** C5.  A mint that changes the store adds one mint row with the
    requested amount and one balance row that credits the amount cut down
    to the supply, with no transferable part.  It adds nothing to
    [brc20_events]: the mint event of the specification is not written. *)
Theorem insertMint_accepted mint iid loc db db' :
  insertMint mint iid loc db = Ok db' ->
  db' <> db ->
  exists token requested,
    getDeploy (mint_tick mint) db = Some token
    /\ parse (mint_amt mint) = Some requested
    /\ db' = add_balances
               [balance_row iid (d_id token) (block_height loc) (address loc)
                            (credited token requested db) 0]
               (add_mint (mint_row iid (d_id token) loc requested) db)
    /\ brc20_events db' = brc20_events db.
Proof.
  intros H Hne.
  apply insertMint_effect in H as [->|(token & a & G & P & _ & ->)]; [contradiction|].
  exists token, a. repeat split; auto.
Qed.

(** ** Deploys *)

Lemma ticker_taken_getDeploy ticker db :
  ticker_taken ticker db = true <-> exists d, getDeploy ticker db = Some d.
Proof.
  unfold ticker_taken, getDeploy. split.
  - intros H. apply existsb_exists in H as (d & Hd & E).
    destruct (find _ _) as [x|] eqn:F; [eauto|].
    apply (find_none _ _ F) in Hd. simpl in Hd. congruence.
  - intros (d & F). apply find_some in F as [Hd E].
    apply existsb_exists. eauto.
Qed.

Lemma lower_getDeploy t1 t2 db :
  Str.lower t1 = Str.lower t2 -> getDeploy t1 db = getDeploy t2 db.
Proof. unfold getDeploy. now intros ->. Qed.

Lemma insertDeploy_numeric deploy iid loc addr db :
  truthy (address loc) = Some addr ->
  deploy_numeric deploy = true ->
  exists row,
    d_id row = deploys_seq db /\ d_ticker row = deploy_tick deploy
    /\ d_inscription_id row = iid /\ d_address row = addr
    /\ insertDeploy deploy iid loc db
       = Ok (if ticker_taken (deploy_tick deploy) db then db
             else insert_event (deploy_event iid (deploys_seq db)) (add_deploy row db)).
Proof.
  unfold deploy_numeric, insertDeploy. intros -> H.
  destruct (parse (deploy_max deploy)) as [mx|]; [|discriminate].
  destruct (deploy_lim deploy) as [l|].
  - destruct (parse l) as [lv|]; [|discriminate].
    destruct (parse_int _) as [dc|]; [|discriminate]. simpl.
    unfold insert_deploy_on_conflict_do_nothing.
    eexists {| d_id := deploys_seq db |}. repeat split.
    destruct (ticker_taken _ db); reflexivity.
  - destruct (parse_int _) as [dc|]; [|discriminate]. simpl.
    unfold insert_deploy_on_conflict_do_nothing.
    eexists {| d_id := deploys_seq db |}. repeat split.
    destruct (ticker_taken _ db); reflexivity.
Qed.

Lemma find_snoc {A : Type} (p : A -> bool) (l : list A) x :
  find p (l ++ [x]) = match find p l with
                      | Some y => Some y
                      | None => if p x then Some x else None
                      end.
Proof.
  induction l as [|a l IH]; simpl; [reflexivity|].
  destruct (p a); auto.
Qed.

Lemma getDeploy_add_deploy ticker row e db :
  ticker_taken ticker db = false ->
  Str.lower (d_ticker row) = Str.lower ticker ->
  getDeploy ticker (insert_event e (add_deploy row db)) = Some row.
Proof.
  unfold getDeploy, ticker_taken. simpl. intros T E.
  rewrite find_snoc.
  destruct (find _ (brc20_deploys db)) as [x|] eqn:F.
  - apply find_some in F as [Hx Ex].
    assert (X : existsb (fun d => String.eqb (Str.lower (d_ticker d)) (Str.lower ticker))
                        (brc20_deploys db) = true) by (apply existsb_exists; eauto).
    congruence.
  - simpl. rewrite E, String.eqb_refl. reflexivity.
Qed.

(** C6.  In every state that the store can reach the lowered tickers are
    pairwise distinct, and a deploy keeps them so.  When a token with the
    same lowered ticker is there already the deploy changes nothing, the
    event log included, and the earlier token stays the one that
    [getDeploy] finds; otherwise the row is created together with its
    deploy event.  Any later deploy of a ticker that lowers to the same
    text is then a no-op. *)
Theorem insertDeploy_first_writer_wins deploy iid loc addr db :
  reachable db ->
  truthy (address loc) = Some addr ->
  deploy_numeric deploy = true ->
  unique_tickers db
  /\ exists db',
       insertDeploy deploy iid loc db = Ok db'
       /\ unique_tickers db'
       /\ match getDeploy (deploy_tick deploy) db with
          | Some earlier =>
              db' = db /\ getDeploy (deploy_tick deploy) db' = Some earlier
          | None =>
              exists row,
                d_ticker row = deploy_tick deploy /\ d_inscription_id row = iid
                /\ db' = insert_event (deploy_event iid (d_id row)) (add_deploy row db)
                /\ getDeploy (deploy_tick deploy) db' = Some row
          end
       /\ forall later iid' loc',
            Str.lower (deploy_tick later) = Str.lower (deploy_tick deploy) ->
            deploy_numeric later = true ->
            insertDeploy later iid' loc' db' = Ok db'.
Proof.
  intros R A W. pose proof (reachable_consistent _ R) as C.
  split; [exact (tickers_nodup _ C)|].
  destruct (insertDeploy_numeric deploy iid loc addr db A W)
    as (row & Eid & Etick & Eiid & _ & H).
  set (db' := if ticker_taken (deploy_tick deploy) db then db
              else insert_event (deploy_event iid (deploys_seq db)) (add_deploy row db))
    in *.
  exists db'. split; [exact H|].
  assert (G' : exists d, getDeploy (deploy_tick deploy) db' = Some d).
  { unfold db'. destruct (ticker_taken _ db) eqn:T.
    - now apply ticker_taken_getDeploy.
    - exists row. apply getDeploy_add_deploy; auto. now rewrite Etick. }
  split; [|split].
  - apply tickers_nodup. eapply consistent_insertDeploy; eauto.
  - destruct (getDeploy (deploy_tick deploy) db) as [earlier|] eqn:G.
    + assert (T : ticker_taken (deploy_tick deploy) db = true)
        by (apply ticker_taken_getDeploy; eauto).
      unfold db'. rewrite T. auto.
    + unfold db'. destruct (ticker_taken (deploy_tick deploy) db) eqn:T.
      * apply ticker_taken_getDeploy in T as (d & T). congruence.
      * exists row. rewrite Eid. repeat split; auto.
        apply getDeploy_add_deploy; auto. now rewrite Etick.
  - intros later iid' loc' El Wl.
    destruct (truthy (address loc')) as [addr'|] eqn:A'.
    + destruct (insertDeploy_numeric later iid' loc' addr' db' A' Wl)
        as (row' & _ & _ & _ & _ & ->).
      replace (ticker_taken (deploy_tick later) _) with true; [reflexivity|].
      symmetry. apply ticker_taken_getDeploy.
      rewrite (lower_getDeploy _ _ _ El). exact G'.
    + unfold insertDeploy. now rewrite A'.
Qed.

(** ** Reserves *)

Lemma filter_unique_key {A B : Type} (key : A -> B) (p : A -> bool) (l : list A) x :
  NoDup (map key l) -> In x l ->
  (forall y, In y l -> p y = true -> key y = key x) ->
  filter p l = if p x then [x] else [].
Proof.
  induction l as [|a l IH]; simpl; intros ND Hin Hp; [contradiction|].
  inversion ND as [|? ? Hnot ND']; subst.
  destruct Hin as [->|Hin].
  - assert (E : filter p l = []).
    { apply filter_none, Forall_forall. intros y Hy.
      destruct (p y) eqn:Py; auto. exfalso. apply Hnot.
      rewrite <- (Hp y (or_intror Hy) Py). now apply in_map. }
    rewrite E. reflexivity.
  - assert (Pa : p a = false).
    { destruct (p a) eqn:Pa; auto. exfalso. apply Hnot.
      rewrite (Hp a (or_introl eq_refl) Pa). now apply in_map. }
    rewrite Pa. apply IH; auto.
Qed.

Lemma nodup_constant {A : Type} (dec : forall x y : A, {x = y} + {x <> y}) c n :
  nodup dec (repeat c n) = match n with O => [] | S _ => [c] end.
Proof.
  induction n as [|n IH]; simpl; [reflexivity|].
  destruct n as [|n]; simpl in *; [reflexivity|].
  destruct (dec c c) as [_|X]; [exact IH|contradiction].
Qed.

Lemma map_constant {A B : Type} (c : B) (l : list A) :
  map (fun _ => c) l = repeat c (length l).
Proof. induction l; simpl; congruence. Qed.

Lemma balances_join_token addr tick db token :
  consistent db ->
  getDeploy tick db = Some token ->
  balances_join addr (Some (map Str.lower [tick])) db
  = map (fun b => (d_ticker token, b))
        (filter (fun b => (b_brc20_deploy_id b =? d_id token)%N)
                (filter (fun b => address_eqb (b_address b) (Some addr))
                        (brc20_balances db))).
Proof.
  intros C G. unfold balances_join.
  induction (filter (fun b => address_eqb (b_address b) (Some addr)) (brc20_balances db))
    as [|b l IH]; [reflexivity|].
  cbn [flat_map]. rewrite IH.
  rewrite (filter_unique_key (fun d => Str.lower (d_ticker d)) _ (brc20_deploys db) token).
  - simpl. rewrite (getDeploy_ticker _ _ _ G), String.eqb_refl. simpl.
    rewrite andb_true_r, (N.eqb_sym (d_id token)).
    destruct (b_brc20_deploy_id b =? d_id token)%N; reflexivity.
  - apply tickers_nodup, C.
  - eapply getDeploy_In; eauto.
  - intros y _ Hy. apply andb_prop in Hy as [_ Hy]. simpl in Hy.
    rewrite orb_false_r in Hy. apply String.eqb_eq in Hy.
    rewrite Hy. symmetry. eapply getDeploy_ticker; eauto.
Qed.

Lemma available_read_sum addr tick db token :
  consistent db ->
  getDeploy tick db = Some token ->
  available_read addr tick db = available addr (d_id token) db.
Proof.
  intros C G. unfold available_read, getBalances, available.
  change (option_map (map Str.lower) (Some [tick])) with (Some (map Str.lower [tick])).
  cbv zeta.
  rewrite (balances_join_token addr tick db token C G).
  set (rows := filter _ (filter _ (brc20_balances db))).
  rewrite map_map. simpl. rewrite map_constant, nodup_constant.
  destruct rows as [|b rows]; simpl; [reflexivity|].
  rewrite String.eqb_refl. simpl. f_equal. f_equal.
  induction rows as [|r rows IH]; simpl; [reflexivity|].
  rewrite String.eqb_refl. simpl. f_equal. exact IH.
Qed.

(** C4.  An inscribe-transfer of an undeployed token, or of more than the
    sum of the sender's avail deltas in the token, leaves the store
    unchanged.  Otherwise one intent is added, with no receiver yet, and
    one balance row that moves the amount from avail to trans.  Nothing is
    added to [brc20_events]: the transfer-reserve event of the
    specification is not written. *)
Theorem insertTransfer_reserve transfer iid loc addr a db :
  reachable db ->
  truthy (address loc) = Some addr ->
  parse (transfer_amt transfer) = Some a ->
  match getDeploy (transfer_tick transfer) db with
  | None => insertTransfer transfer iid loc db = Ok db
  | Some token =>
      (available addr (d_id token) db < a -> insertTransfer transfer iid loc db = Ok db)
      /\ (a <= available addr (d_id token) db ->
          exists db',
            insertTransfer transfer iid loc db = Ok db'
            /\ brc20_transfers db'
               = brc20_transfers db
                 ++ [transfer_row (transfers_seq db) iid (d_id token) loc addr None a]
            /\ brc20_balances db'
               = brc20_balances db
                 ++ [balance_row iid (d_id token) (block_height loc) (Some addr) (- a) a]
            /\ brc20_events db' = brc20_events db)
  end.
Proof.
  intros R A P. apply reachable_consistent in R.
  unfold insertTransfer. rewrite A.
  destruct (getDeploy (transfer_tick transfer) db) as [token|] eqn:G; [|reflexivity].
  fold (available_read addr (transfer_tick transfer) db).
  rewrite (available_read_sum _ _ _ _ R G).
  unfold of_string. rewrite P. simpl. split.
  - intros H. rewrite (proj2 (Qle_bool_false _ _) H). reflexivity.
  - intros H. rewrite (proj2 (Qle_bool_iff _ _) H). simpl.
    eexists. split; [reflexivity|]. simpl. auto.
Qed.

(** ** Movements of a transfer inscription *)

Lemma join_length iid db :
  length (flat_map
            (fun l => filter (fun t => (t_inscription_id t =? l_inscription_id l)%N)
                             (brc20_transfers db))
            (filter (fun l => (l_inscription_id l =? iid)%N) (locations db)))
  = (location_count iid db * length (intents iid db))%nat.
Proof.
  unfold location_count, intents.
  induction (locations db) as [|l ls IH]; simpl; [reflexivity|].
  destruct (N.eqb_spec (l_inscription_id l) iid) as [E|NE]; simpl; [|exact IH].
  rewrite length_app, IH, E. reflexivity.
Qed.

Lemma transfers_of_inscription_length iid db :
  length (transfers_of_inscription iid db)
  = Nat.min 3 (location_count iid db * length (intents iid db)).
Proof.
  unfold transfers_of_inscription. now rewrite length_firstn, join_length.
Qed.

Lemma location_count_insert_location iid jid loc db :
  location_count iid (insert_location jid loc db)
  = (location_count iid db + if (jid =? iid)%N then 1 else 0)%nat.
Proof.
  unfold location_count. simpl. rewrite filter_app, length_app. simpl.
  destruct (jid =? iid)%N; reflexivity.
Qed.

Lemma transfers_of_inscription_intents iid db t :
  In t (transfers_of_inscription iid db) -> In t (intents iid db).
Proof.
  unfold transfers_of_inscription, intents. intros H.
  apply In_firstn in H. apply in_flat_map in H as (l & Hl & H).
  apply filter_In in Hl as [_ Hl]. apply filter_In in H as [Ht H].
  apply filter_In. split; auto.
  apply N.eqb_eq in Hl, H. apply N.eqb_eq. congruence.
Qed.

Lemma insertOperationTransfer_ignored iid loc db :
  length (transfers_of_inscription iid db) <> 2%nat ->
  insertOperationTransfer iid loc db = Ok db.
Proof.
  unfold insertOperationTransfer.
  destruct (transfers_of_inscription iid db) as [|t1 [|t2 [|t3 l]]]; simpl; auto.
  intros H. now contradiction H.
Qed.

Lemma deliver_locations ev db db' :
  deliver ev db = Ok db' ->
  forall iid, (location_count iid db <= location_count iid db')%nat.
Proof.
  intros H iid.
  assert (X : forall jid loc, (location_count iid db
                               <= location_count iid (insert_location jid loc db))%nat).
  { intros. rewrite location_count_insert_location. lia. }
  destruct ev as [jid brc20 loc|jid loc]; simpl in H.
  - unfold insertOperationGenesis in H.
    destruct brc20 as [op|]; [|inv H; apply X].
    destruct (truthy (address loc)); [|inv H; apply X].
    destruct op.
    + apply insertDeploy_effect in H as [->|(row & _ & _ & _ & ->)]; apply X.
    + apply insertMint_effect in H as [->|(token & a & _ & _ & _ & ->)]; apply X.
    + apply insertTransfer_effect in H as [->|(ad & token & a & _ & _ & _ & _ & ->)];
        apply X.
  - apply insertOperationTransfer_effect in H as [->|(tr & _ & _ & H)]; [apply X|].
    apply applyBalanceTransfer_effect in H as [_ ->]. apply X.
Qed.

Lemma run_locations evs db db' :
  run evs db = Ok db' ->
  forall iid, (location_count iid db <= location_count iid db')%nat.
Proof.
  revert db. induction evs as [|ev evs IH]; simpl; intros db H iid.
  - inv H. lia.
  - destruct (deliver ev db) as [db1|] eqn:D; simpl in H; [|discriminate].
    pose proof (deliver_locations _ _ _ D iid). specialize (IH _ H iid). lia.
Qed.

Lemma later_movement_ignored iid loc db :
  (2 <= location_count iid db)%nat ->
  deliver (Transfer iid loc) db = Ok (insert_location iid loc db).
Proof.
  intros H. simpl. apply insertOperationTransfer_ignored.
  rewrite transfers_of_inscription_length, location_count_insert_location, N.eqb_refl.
  destruct (length (intents iid (insert_location iid loc db))) as [|[|n]]; nia.
Qed.

(** C2.  A movement of an inscription that has been delivered before
    settles only if it is the first one after the genesis, with the one
    intent of that inscription; every later movement of the inscription,
    whatever happens in between, writes its location and nothing else.
    No movement adds to [brc20_events]: no transfer-settle event is
    written. *)
Theorem transfer_settled_at_most_once iid loc db db' :
  (1 <= location_count iid db)%nat ->
  deliver (Transfer iid loc) db = Ok db' ->
  (brc20_balances db' <> brc20_balances db \/ brc20_transfers db' <> brc20_transfers db ->
   location_count iid db = 1%nat
   /\ exists intent,
        intents iid db = [intent]
        /\ applyBalanceTransfer intent loc (insert_location iid loc db) = Ok db')
  /\ (forall evs db'' loc',
        run evs db' = Ok db'' ->
        deliver (Transfer iid loc') db'' = Ok (insert_location iid loc' db''))
  /\ brc20_events db' = brc20_events db.
Proof.
  intros L H. split; [|split].
  - intros Changed. simpl in H.
    apply insertOperationTransfer_effect in H as [->|(tr & Len & Hnth & H)].
    + simpl in Changed. destruct Changed as [X|X]; now contradiction X.
    + rewrite transfers_of_inscription_length, location_count_insert_location,
        N.eqb_refl in Len.
      apply nth_error_In, transfers_of_inscription_intents in Hnth.
      change (intents iid (insert_location iid loc db)) with (intents iid db) in *.
      destruct (intents iid db) as [|t1 [|t2 l]] eqn:I; cbn [length] in Len.
      * rewrite Nat.mul_0_r in Len. discriminate.
      * rewrite Nat.mul_1_r in Len. split; [lia|]. exists t1. split; auto.
        destruct Hnth as [->|[]]. exact H.
      * exfalso. nia.
  - intros evs db'' loc' Hrun. apply later_movement_ignored.
    pose proof (run_locations _ _ _ Hrun iid).
    pose proof (deliver_locations _ _ _ H iid) as X.
    assert (location_count iid db' = S (location_count iid db)).
    { simpl in H.
      apply insertOperationTransfer_effect in H as [->|(tr & _ & _ & H)].
      - rewrite location_count_insert_location, N.eqb_refl. lia.
      - apply applyBalanceTransfer_effect in H as [_ ->].
        change (location_count iid (update_to_address _ _ (add_balances _ ?d)))
          with (location_count iid d).
        rewrite location_count_insert_location, N.eqb_refl. lia. }
    lia.
  - simpl in H. apply insertOperationTransfer_effect in H as [->|(tr & _ & _ & H)].
    + reflexivity.
    + apply applyBalanceTransfer_effect in H as [_ ->]. reflexivity.
Qed.

(** *** A movement without an address *)

(** At the first movement after the genesis the join holds the one
    intent twice: once for each location of the inscription. *)
Lemma transfers_of_inscription_first_move iid loc intent db :
  location_count iid db = 1%nat ->
  intents iid db = [intent] ->
  transfers_of_inscription iid (insert_location iid loc db) = [intent; intent].
Proof.
  unfold location_count, intents, transfers_of_inscription. intros L I. simpl.
  rewrite filter_app. simpl. rewrite N.eqb_refl.
  destruct (filter (fun l => (l_inscription_id l =? iid)%N) (locations db))
    as [|l [|l' ls]] eqn:F; try discriminate L.
  assert (E : l_inscription_id l = iid).
  { assert (X : In l (filter (fun l => (l_inscription_id l =? iid)%N) (locations db)))
      by (rewrite F; now left).
    apply filter_In in X as [_ X]. now apply N.eqb_eq. }
  simpl. rewrite E, I. reflexivity.
Qed.

Lemma intents_update_to_address iid tid to db :
  intents iid (update_to_address tid to db)
  = map (fun t => if (t_id t =? tid)%N then set_to_address to t else t) (intents iid db).
Proof.
  unfold intents. simpl.
  induction (brc20_transfers db) as [|t l IH]; simpl; [reflexivity|].
  assert (E : t_inscription_id (if (t_id t =? tid)%N then set_to_address to t else t)
              = t_inscription_id t) by (destruct (t_id t =? tid)%N; reflexivity).
  rewrite E. destruct (t_inscription_id t =? iid)%N; simpl; now rewrite IH.
Qed.

(** C3.  The first movement of a reserved transfer inscription to a
    location without an address is not guarded as the other paths guard
    an inscription spent as fee: the settlement is sent with a NULL
    address.  Where the address column refuses NULL the delivery fails
    and nothing is settled.  Where it does not, the credit (+amt, 0) is
    written all the same, under NULL, so that nothing is burned; the
    receiver of the intent stays NULL, there is no sentinel; and no event
    is written.  In neither store does the movement burn the amount as
    the specification has it. *)
Theorem fee_spent_move_is_not_guarded iid loc intent db :
  location_count iid db = 1%nat ->
  intents iid db = [intent] ->
  address loc = None ->
  (address_not_null db = true ->
   deliver (Transfer iid loc) db = Throw NotNullViolation)
  /\ (address_not_null db = false ->
      exists db',
        deliver (Transfer iid loc) db = Ok db'
        /\ brc20_balances db'
           = brc20_balances db
             ++ [balance_row (t_inscription_id intent) (t_brc20_deploy_id intent)
                             (block_height loc) (Some (t_from_address intent))
                             0 (- t_amount intent);
                 balance_row (t_inscription_id intent) (t_brc20_deploy_id intent)
                             (block_height loc) None (t_amount intent) 0]
        /\ map t_to_address (intents iid db') = [None]
        /\ effective_minted (t_brc20_deploy_id intent) db'
           == effective_minted (t_brc20_deploy_id intent) db
        /\ brc20_events db' = brc20_events db)
  /\ (forall db',
        deliver (Transfer iid loc) db = Ok db' ->
        ~ burns intent loc (insert_location iid loc db) db').
Proof.
  intros L I A. destruct loc as [g h tx a]. simpl in A. subst a.
  set (loc := {| genesis_id := g; block_height := h; tx_id := tx; address := None |}).
  assert (D : deliver (Transfer iid loc) db
              = if address_not_null db then Throw NotNullViolation
                else Ok (settled intent loc (insert_location iid loc db))).
  { simpl. unfold insertOperationTransfer.
    rewrite (transfers_of_inscription_first_move iid loc intent db L I).
    unfold applyBalanceTransfer, insert_balances. simpl.
    destruct (address_not_null db); reflexivity. }
  split; [|split].
  - intros N. now rewrite D, N.
  - intros N. rewrite D, N. eexists. split; [reflexivity|].
    split; [reflexivity|]. split; [|split; [|reflexivity]].
    + unfold settled. rewrite intents_update_to_address.
      change (intents iid (add_balances _ (insert_location iid loc db)))
        with (intents iid db).
      rewrite I. simpl. now rewrite N.eqb_refl.
    + unfold settled.
      change (effective_minted (t_brc20_deploy_id intent)
                (update_to_address (t_id intent) (address loc) ?d))
        with (effective_minted (t_brc20_deploy_id intent) d).
      rewrite effective_minted_add_balances. simpl. rewrite N.eqb_refl. simpl.
      change (effective_minted (t_brc20_deploy_id intent) (insert_location iid loc db))
        with (effective_minted (t_brc20_deploy_id intent) db).
      unfold row_total. simpl. lra.
  - intros db' H (B & _). rewrite D in H.
    destruct (address_not_null db); [discriminate|]. inv H.
    unfold settled in B. simpl in B. apply app_inv_head in B. discriminate B.
Qed.

(** ** Supply *)

Lemma filter_map_length {A B : Type} (f : A -> B) (p : B -> bool) (l : list A) :
  length (filter p (map f l)) = length (filter (fun x => p (f x)) l).
Proof.
  induction l as [|a l IH]; simpl; [reflexivity|].
  destruct (p (f a)); simpl; congruence.
Qed.

Lemma supply_query_token ticker token db :
  consistent db -> getDeploy ticker db = Some token ->
  supply_query (d_id token) db = [d_max token].
Proof.
  intros C G. unfold supply_query.
  rewrite (filter_unique_key d_id _ (brc20_deploys db) token).
  - now rewrite N.eqb_refl.
  - apply ids_nodup, C.
  - eapply getDeploy_In; eauto.
  - intros y _ H. now apply N.eqb_eq.
Qed.

(** C8.  For a deployed token with at least one balance row the supply
    query gives the max of the token, the sum of all its deltas and the
    number of distinct addresses with a positive sum.  For a token with no
    balance row it fails on the first row of an empty result. *)
Theorem getTokenSupply_result ticker token db :
  reachable db ->
  getDeploy ticker db = Some token ->
  getTokenSupply ticker db
  = match rows_of_deploy (d_id token) db with
    | [] => Throw TypeError
    | _ :: _ =>
        Ok (Some {| max_supply := d_max token;
                    minted_supply := effective_minted (d_id token) db;
                    holders := length (holder_addresses (d_id token) db) |})
    end.
Proof.
  intros R G. apply reachable_consistent in R.
  unfold getTokenSupply. rewrite G, (supply_query_token _ _ _ R G). simpl.
  unfold minted_query, effective_minted, holders_query, holder_addresses, historical_holders.
  rewrite filter_map_length.
  destruct (rows_of_deploy (d_id token) db); reflexivity.
Qed.

(** C10.  For a deployed token that has no balance row the supply query
    does not answer with a minted supply of zero: it reads [total] on the
    first row of an empty result and fails. *)
Theorem getTokenSupply_unminted ticker token db :
  getDeploy ticker db = Some token ->
  rows_of_deploy (d_id token) db = [] ->
  getTokenSupply ticker db = Throw TypeError.
Proof.
  intros G E. unfold getTokenSupply. rewrite G.
  assert (S : exists mx rest, supply_query (d_id token) db = mx :: rest).
  { unfold supply_query. pose proof (getDeploy_In _ _ _ G) as Hin.
    destruct (filter _ (brc20_deploys db)) as [|d l] eqn:F.
    - assert (X : In token []).
      { rewrite <- F. apply filter_In. split; auto. apply N.eqb_refl. }
      destruct X.
    - simpl. eauto. }
  destruct S as (mx & rest & ->). unfold minted_query. rewrite E. reflexivity.
Qed.

(** ** The ingestion queue *)

Section QueueFacts.

Import Ordhook.

Variable OrdhookBlock : Type.

Lemma schedule_tryToStartAnother (q : PQueue OrdhookBlock) :
  schedule (tryToStartAnother q) = schedule q.
Proof.
  unfold schedule, tryToStartAnother.
  destruct (running q); [reflexivity|].
  destruct (waiting q) as [|job rest] eqn:W; simpl; rewrite ?W; [reflexivity|].
  now rewrite <- app_assoc.
Qed.

Lemma schedule_add job (q : PQueue OrdhookBlock) :
  schedule (add job q) = schedule q ++ [job].
Proof.
  unfold add. rewrite schedule_tryToStartAnother. unfold schedule. simpl.
  now rewrite app_assoc.
Qed.

Lemma schedule_next (q : PQueue OrdhookBlock) : schedule (next q) = schedule q.
Proof. unfold next. now rewrite schedule_tryToStartAnother. Qed.

(** A run of events keeps the schedule and appends what it accepts. *)
Lemma play_schedule evs (q : PQueue OrdhookBlock) :
  schedule (snd (play evs q)) = schedule q ++ fst (play evs q).
Proof.
  revert q. induction evs as [|ev evs IH]; intros q; simpl.
  - now rewrite app_nil_r.
  - destruct (handle ev q) as [answer q1] eqn:H.
    specialize (IH q1). destruct (play evs q1) as [accepted q2]. simpl in *.
    rewrite IH. clear IH.
    destruct ev as [b|b|]; simpl in H.
    + unfold onBlock in H. destruct (10 <? size q)%nat; inv H; simpl.
      * reflexivity.
      * now rewrite schedule_add, <- app_assoc.
    + unfold onBlockRollBack in H. destruct (10 <? size q)%nat; inv H; simpl.
      * reflexivity.
      * now rewrite schedule_add, <- app_assoc.
    + inv H. simpl. now rewrite schedule_next.
Qed.

(** A job begins only in a free slot, and at most one at a time. *)
Lemma tryToStartAnother_started (q : PQueue OrdhookBlock) :
  started (tryToStartAnother q) = started q
  \/ (running q = None
      /\ exists job, started (tryToStartAnother q) = started q ++ [job]
                     /\ running (tryToStartAnother q) = Some job).
Proof.
  unfold tryToStartAnother. destruct (running q); auto.
  destruct (waiting q); auto. right. split; auto. eexists. simpl. eauto.
Qed.

(** *** Progress of the queue *)

Lemma size_tryToStartAnother (q : PQueue OrdhookBlock) :
  (size (tryToStartAnother q) <= size q)%nat.
Proof.
  unfold tryToStartAnother, size. destruct (running q); [lia|].
  destruct (waiting q) as [|job rest] eqn:W; simpl; rewrite ?W; simpl; lia.
Qed.

Lemma size_add job (q : PQueue OrdhookBlock) : (size (add job q) <= S (size q))%nat.
Proof.
  unfold add. etransitivity; [apply size_tryToStartAnother|].
  unfold size. simpl. rewrite length_app. simpl. lia.
Qed.

Lemma size_next (q : PQueue OrdhookBlock) : (size (next q) <= size q)%nat.
Proof. unfold next. etransitivity; [apply size_tryToStartAnother|]. reflexivity. Qed.

Lemma size_handle ev (q : PQueue OrdhookBlock) :
  (size q <= 11)%nat -> (size (snd (handle ev q)) <= 11)%nat.
Proof.
  intros H. destruct ev as [b|b|]; simpl.
  - unfold onBlock. destruct (Nat.ltb_spec 10 (size q)); simpl; [exact H|].
    pose proof (size_add (InsertBlock b) q). lia.
  - unfold onBlockRollBack. destruct (Nat.ltb_spec 10 (size q)); simpl; [exact H|].
    pose proof (size_add (RollBackBlock b) q). lia.
  - pose proof (size_next q). lia.
Qed.

(** Never more than eleven jobs wait. *)
Lemma play_size evs (q : PQueue OrdhookBlock) :
  (size q <= 11)%nat -> (size (snd (play evs q)) <= 11)%nat.
Proof.
  revert q. induction evs as [|ev evs IH]; intros q H; simpl; [exact H|].
  pose proof (size_handle ev q H) as H1.
  destruct (handle ev q) as [answer q1]. simpl in H1.
  specialize (IH q1 H1). destruct (play evs q1) as [accepted q2]. exact IH.
Qed.

Lemma play_app evs1 evs2 (q : PQueue OrdhookBlock) :
  play (evs1 ++ evs2) q
  = (fst (play evs1 q) ++ fst (play evs2 (snd (play evs1 q))),
     snd (play evs2 (snd (play evs1 q)))).
Proof.
  revert q. induction evs1 as [|ev evs1 IH]; intros q; simpl.
  - now destruct (play evs2 q).
  - destruct (handle ev q) as [answer q1]. rewrite IH.
    destruct (play evs1 q1) as [acc1 q2]. simpl.
    destruct (play evs2 q2) as [acc2 q3]. simpl.
    destruct answer as [[|]|]; destruct (job_of _ ev); reflexivity.
Qed.

(** The end of the running job starts the oldest job that waits. *)
Lemma next_starts job rest (q : PQueue OrdhookBlock) :
  waiting q = job :: rest ->
  next q = {| running := Some job; waiting := rest; started := started q ++ [job] |}.
Proof. intros W. unfold next, tryToStartAnother. simpl. now rewrite W. Qed.

Lemma next_idle (q : PQueue OrdhookBlock) :
  waiting q = [] ->
  next q = {| running := None; waiting := []; started := started q |}.
Proof. intros W. unfold next, tryToStartAnother. simpl. now rewrite W. Qed.

(** A job added to a queue at rest starts at once. *)
Lemma add_starts job (q : PQueue OrdhookBlock) :
  running q = None -> waiting q = [] ->
  add job q = {| running := Some job; waiting := []; started := started q ++ [job] |}.
Proof. intros R W. unfold add, tryToStartAnother. simpl. now rewrite R, W. Qed.

(** The slot is never free while a job waits. *)
Lemma tryToStartAnother_busy (q : PQueue OrdhookBlock) :
  running (tryToStartAnother q) = None -> waiting (tryToStartAnother q) = [].
Proof.
  unfold tryToStartAnother. destruct (running q) as [job|] eqn:R.
  - rewrite R. discriminate.
  - destruct (waiting q) as [|job rest] eqn:W; simpl; [now rewrite W|discriminate].
Qed.

Lemma handle_busy ev (q : PQueue OrdhookBlock) :
  (running q = None -> waiting q = []) ->
  running (snd (handle ev q)) = None -> waiting (snd (handle ev q)) = [].
Proof.
  intros I. destruct ev as [b|b|]; simpl.
  - unfold onBlock. destruct (10 <? size q)%nat; simpl; [exact I|].
    apply tryToStartAnother_busy.
  - unfold onBlockRollBack. destruct (10 <? size q)%nat; simpl; [exact I|].
    apply tryToStartAnother_busy.
  - apply tryToStartAnother_busy.
Qed.

Lemma play_busy evs (q : PQueue OrdhookBlock) :
  (running q = None -> waiting q = []) ->
  running (snd (play evs q)) = None -> waiting (snd (play evs q)) = [].
Proof.
  revert q. induction evs as [|ev evs IH]; intros q I; simpl; [exact I|].
  pose proof (handle_busy ev q I) as I1.
  destruct (handle ev q) as [answer q1]. simpl in I1.
  specialize (IH q1 I1). destruct (play evs q1) as [accepted q2]. exact IH.
Qed.

(** Completions alone accept nothing, and as many of them as jobs wait
    leave none waiting. *)
Lemma play_settled n (q : PQueue OrdhookBlock) :
  (size q <= n)%nat ->
  fst (play (repeat Settled n) q) = []
  /\ waiting (snd (play (repeat Settled n) q)) = [].
Proof.
  revert q. induction n as [|n IH]; intros q H.
  - split; [reflexivity|]. unfold size in H. simpl.
    apply length_zero_iff_nil. lia.
  - assert (H1 : (size (next q) <= n)%nat).
    { unfold size in *. destruct (waiting q) as [|job rest] eqn:W.
      - rewrite (next_idle q W). simpl. lia.
      - rewrite (next_starts job rest q W). simpl in *. lia. }
    destruct (IH (next q) H1) as [E1 E2].
    cbn [repeat play handle].
    destruct (play (repeat Settled n) (next q)) as [accepted q2].
    cbn [fst snd job_of] in *. auto.
Qed.

(** What is left waiting after a history starts once the jobs before it
    have ended, in the order of arrival. *)
Lemma play_then tail (evs : list (Event OrdhookBlock)) :
  fst (play tail (snd (play evs idle))) = [] ->
  waiting (snd (play tail (snd (play evs idle)))) = [] ->
  waiting (snd (play (evs ++ tail) idle)) = []
  /\ started (snd (play (evs ++ tail) idle)) = fst (play evs idle)
  /\ fst (play (evs ++ tail) idle) = fst (play evs idle).
Proof.
  intros E1 E2. rewrite play_app. cbn [fst snd].
  pose proof (play_schedule tail (snd (play evs idle))) as S.
  rewrite (play_schedule evs idle), E1, app_nil_r in S.
  unfold schedule in S. rewrite E2, app_nil_r in S.
  split; [exact E2|]. split; [exact S|]. now rewrite E1, app_nil_r.
Qed.

(** C9.  A block or a rollback is refused exactly when more than ten
    jobs wait in the queue; otherwise the callback adds its job and
    accepts.  The queue has one slot: a job that arrives while another
    runs does not begin, it goes behind those that wait; and over any
    history of offers and completions from the idle queue, the jobs
    begun followed by the jobs waiting are the accepted blocks and
    rollbacks in their order of arrival.  The worker makes progress: a
    job added to a queue at rest starts at once, the end of the running
    job frees the slot and starts the oldest job that waits, the slot is
    never free while a job waits, and eleven completions after any
    history leave nothing waiting, with every accepted block and rollback
    begun once and in the order of arrival. *)
Theorem ingestion_policy :
  (forall block (q : PQueue OrdhookBlock),
      fst (onBlock block q) = false <-> (10 < size q)%nat)
  /\ (forall block (q : PQueue OrdhookBlock),
        fst (onBlockRollBack block q) = false <-> (10 < size q)%nat)
  /\ (forall block (q : PQueue OrdhookBlock),
        onBlock block q = (true, add (InsertBlock block) q)
        \/ onBlock block q = (false, q))
  /\ (forall block (q : PQueue OrdhookBlock),
        onBlockRollBack block q = (true, add (RollBackBlock block) q)
        \/ onBlockRollBack block q = (false, q))
  /\ (forall job (q : PQueue OrdhookBlock),
        schedule (add job q) = schedule q ++ [job]
        /\ (running q <> None ->
            started (add job q) = started q /\ running (add job q) = running q))
  /\ (forall ev (q : PQueue OrdhookBlock),
      started (snd (handle ev q)) = started q
      \/ exists job,
           started (snd (handle ev q)) = started q ++ [job]
           /\ running (snd (handle ev q)) = Some job
           /\ (running q = None \/ ev = Settled))
  /\ (forall evs : list (Event OrdhookBlock),
        schedule (snd (play evs idle)) = fst (play evs idle))
  /\ (forall job (q : PQueue OrdhookBlock),
        running q = None -> waiting q = [] ->
        add job q
        = {| running := Some job; waiting := []; started := started q ++ [job] |})
  /\ (forall job rest (q : PQueue OrdhookBlock),
        waiting q = job :: rest ->
        next q
        = {| running := Some job; waiting := rest; started := started q ++ [job] |})
  /\ (forall q : PQueue OrdhookBlock,
        waiting q = [] ->
        next q = {| running := None; waiting := []; started := started q |})
  /\ (forall evs : list (Event OrdhookBlock),
        running (snd (play evs idle)) = None -> waiting (snd (play evs idle)) = [])
  /\ (forall evs : list (Event OrdhookBlock),
        waiting (snd (play (evs ++ repeat Settled 11) idle)) = []
        /\ started (snd (play (evs ++ repeat Settled 11) idle)) = fst (play evs idle)
        /\ fst (play (evs ++ repeat Settled 11) idle) = fst (play evs idle)).
Proof.
  repeat apply conj.
  - intros block q. unfold onBlock.
    destruct (Nat.ltb_spec 10 (size q)); simpl; split; auto; try discriminate; lia.
  - intros block q. unfold onBlockRollBack.
    destruct (Nat.ltb_spec 10 (size q)); simpl; split; auto; try discriminate; lia.
  - intros block q. unfold onBlock. destruct (10 <? size q)%nat; auto.
  - intros block q. unfold onBlockRollBack. destruct (10 <? size q)%nat; auto.
  - intros job q. split; [apply schedule_add|].
    intros H. unfold add, tryToStartAnother. simpl.
    destruct (running q); [split; reflexivity|now contradiction H].
  - intros ev q. destruct ev as [b|b|]; simpl.
    + unfold onBlock. destruct (10 <? size q)%nat; simpl; auto. unfold add.
      destruct (tryToStartAnother_started
                  {| running := running q; waiting := waiting q ++ [InsertBlock b];
                     started := started q |}) as [E|(R & job & E & E')]; eauto 6.
    + unfold onBlockRollBack. destruct (10 <? size q)%nat; simpl; auto. unfold add.
      destruct (tryToStartAnother_started
                  {| running := running q; waiting := waiting q ++ [RollBackBlock b];
                     started := started q |}) as [E|(R & job & E & E')]; eauto 6.
    + unfold next.
      destruct (tryToStartAnother_started
                  {| running := None; waiting := waiting q; started := started q |})
        as [E|(R & job & E & E')]; eauto 6.
  - intros evs. now rewrite play_schedule.
  - intros job q. apply add_starts.
  - intros job rest q. apply next_starts.
  - intros q. apply next_idle.
  - intros evs. apply play_busy. reflexivity.
  - intros evs.
    assert (B : (size (snd (play evs (@idle OrdhookBlock))) <= 11)%nat)
      by (apply play_size; unfold size; simpl; lia).
    destruct (play_settled 11 _ B) as [E1 E2].
    apply play_then; assumption.
Qed.

(** X14.  Whatever is offered and whenever jobs end, never more than
    eleven jobs wait in the queue; and eleven is reached: of twelve blocks
    offered while nothing ends, one runs and eleven wait, and the next
    one is refused. *)
Theorem queue_depth_bounded :
  (forall evs : list (Event OrdhookBlock),
      (size (snd (play evs idle)) <= 11)%nat)
  /\ (forall block : OrdhookBlock,
        size (snd (play (repeat (Block block) 12) idle)) = 11%nat
        /\ fst (onBlock block (snd (play (repeat (Block block) 12) idle))) = false).
Proof.
  split.
  - intros evs. apply play_size. unfold size. simpl. lia.
  - intros block. split; reflexivity.
Qed.

End QueueFacts.

(** ** Bounds of the supply *)

Lemma digits_of_nonneg s acc z :
  (0 <= acc)%Z -> digits_of s acc = Some z -> (0 <= z)%Z.
Proof.
  revert acc. induction s as [|c r IH]; cbn [digits_of]; intros acc Hacc H.
  - now inv H.
  - unfold digit_of in H.
    destruct ((48 <=? N_of_ascii c)%N && (N_of_ascii c <=? 57)%N); [|discriminate].
    apply IH in H; [exact H|lia].
Qed.

(** A numeral has no sign: what is read is never negative. *)
Lemma parse_nonneg s q : parse s = Some q -> 0 <= q.
Proof.
  unfold parse. intros H.
  destruct (Str.split "." s) as [|i [|f [|x l]]]; try discriminate.
  - destruct i as [|c r]; [discriminate|].
    destruct (digits_of (String c r) 0) as [z|] eqn:D; [|discriminate].
    inv H. apply digits_of_nonneg in D; [|lia]. unfold Qle. simpl. lia.
  - destruct (i ++ f)%string as [|c r]; [discriminate|].
    destruct (digits_of (String c r) 0) as [z|] eqn:D; [|discriminate].
    inv H. apply digits_of_nonneg in D; [|lia]. unfold Qle. simpl. lia.
Qed.

(** The row that an accepted deploy creates. *)
Lemma insertDeploy_row deploy iid loc db db' :
  insertDeploy deploy iid loc db = Ok db' ->
  db' = db
  \/ exists row,
       d_id row = deploys_seq db
       /\ d_inscription_id row = iid
       /\ 0 <= d_max row
       /\ db' = insert_event (deploy_event iid (deploys_seq db)) (add_deploy row db).
Proof.
  unfold insertDeploy. intros H.
  destruct (truthy (address loc)) as [addr|]; [|inv H; auto].
  destruct (parse (deploy_max deploy)) as [mx|] eqn:P; simpl in H; [|discriminate].
  apply parse_nonneg in P.
  assert (K : forall limit decimals db1 ids,
             insert_deploy_on_conflict_do_nothing iid loc addr (deploy_tick deploy)
               mx limit decimals db = (ids, db1) ->
             db1 = db /\ ids = []
             \/ exists row,
                  d_id row = deploys_seq db /\ d_inscription_id row = iid
                  /\ 0 <= d_max row
                  /\ ids = [deploys_seq db] /\ db1 = add_deploy row db).
  { intros limit decimals db1 ids E. unfold insert_deploy_on_conflict_do_nothing in E.
    destruct (ticker_taken _ db); inv E; auto.
    right. eexists. repeat split; try reflexivity. exact P. }
  destruct (deploy_lim deploy) as [l|]; simpl in H.
  - destruct (parse l) as [lv|]; simpl in H; [|discriminate].
    destruct (parse_int _) as [dc|]; simpl in H; [|discriminate].
    destruct (insert_deploy_on_conflict_do_nothing _ _ _ _ _ _ _ _) as [ids db1] eqn:E.
    apply K in E as [[-> ->]|(row & E1 & E2 & E3 & -> & ->)]; inv H; eauto 8.
  - destruct (parse_int _) as [dc|]; simpl in H; [|discriminate].
    destruct (insert_deploy_on_conflict_do_nothing _ _ _ _ _ _ _ _) as [ids db1] eqn:E.
    apply K in E as [[-> ->]|(row & E1 & E2 & E3 & -> & ->)]; inv H; eauto 8.
Qed.

Lemma credited_bounds token a db :
  0 <= a ->
  0 < d_max token - mintedSupply (d_id token) db ->
  0 <= credited token a db
  /\ credited token a db <= d_max token - mintedSupply (d_id token) db
  /\ credited token a db <= a.
Proof.
  intros Ha Hpos. unfold credited.
  destruct (Qle_bool _ a) eqn:L.
  - apply Qle_bool_iff in L. repeat split; lra.
  - apply Qle_bool_false in L. repeat split; lra.
Qed.

Lemma capped_insertMint mint iid loc db db' :
  consistent db -> capped db -> insertMint mint iid loc db = Ok db' -> capped db'.
Proof.
  intros C K H.
  apply insertMint_effect in H as [->|(token & a & G & P & Hpos & ->)]; auto.
  pose proof (getDeploy_In _ _ _ G) as Hin.
  destruct (credited_bounds token a db (parse_nonneg _ _ P) Hpos) as (B0 & B1 & _).
  unfold capped in *. simpl. apply Forall_forall. intros d Hd.
  rewrite Forall_forall in K. destruct (K d Hd) as [K0 K1].
  rewrite effective_minted_add_balances.
  change (effective_minted (d_id d) (add_mint (mint_row iid (d_id token) loc a) db))
    with (effective_minted (d_id d) db).
  simpl. destruct (N.eqb_spec (d_id token) (d_id d)) as [E|NE]; simpl.
  - assert (d = token)
      by (apply (NoDup_map_injective d_id (brc20_deploys db)); auto; apply C).
    subst d. unfold row_total. simpl.
    pose proof (supply_inv _ C) as S. rewrite Forall_forall in S.
    destruct (S token Hin) as [S1|[S1 S2]]; [|lra]. split; lra.
  - split; lra.
Qed.

Lemma capped_step db db' :
  brc20_deploys db' = brc20_deploys db ->
  (forall id, effective_minted id db' == effective_minted id db) ->
  capped db -> capped db'.
Proof.
  intros Ed Ee K. unfold capped in *. rewrite Ed.
  eapply Forall_impl; [|exact K]. simpl. intros d [K0 K1]. rewrite Ee. auto.
Qed.

Lemma insertTransfer_deploys transfer iid loc db db' :
  insertTransfer transfer iid loc db = Ok db' -> brc20_deploys db' = brc20_deploys db.
Proof.
  intros H.
  apply insertTransfer_effect in H as [->|(addr & token & a & _ & _ & _ & _ & ->)];
    reflexivity.
Qed.

Lemma insertOperationTransfer_deploys iid loc db db' :
  insertOperationTransfer iid loc db = Ok db' -> brc20_deploys db' = brc20_deploys db.
Proof.
  intros H. apply insertOperationTransfer_effect in H as [->|(tr & _ & _ & H)];
    [reflexivity|].
  apply applyBalanceTransfer_effect in H as [_ ->]. reflexivity.
Qed.

Lemma capped_insertDeploy deploy iid loc db db' :
  consistent db -> capped db -> insertDeploy deploy iid loc db = Ok db' -> capped db'.
Proof.
  intros C K H. apply insertDeploy_row in H as [->|(row & Eid & _ & Hmax & ->)]; auto.
  unfold capped in *. simpl. apply Forall_app. split; [exact K|].
  constructor; [|constructor].
  change (effective_minted (d_id row)
            (insert_event (deploy_event iid (deploys_seq db)) (add_deploy row db)))
    with (effective_minted (d_id row) db).
  rewrite Eid, fresh_effective_minted by apply C. split; [lra|exact Hmax].
Qed.

Lemma reachable_capped db : reachable db -> capped db.
Proof.
  induction 1 as [not_null|iid loc db R IH|brc20 iid loc db db' R IH H|iid loc db db' R IH H].
  - constructor.
  - exact IH.
  - pose proof (reachable_consistent _ R) as C.
    unfold insertOperationGenesis in H.
    destruct brc20 as [op|]; [|now inv H].
    destruct (truthy (address loc)); [|now inv H].
    destruct op.
    + eapply capped_insertDeploy; eauto.
    + eapply capped_insertMint; eauto.
    + eapply capped_step; [| |exact IH].
      * eapply insertTransfer_deploys; eauto.
      * intros id. eapply effective_minted_insertTransfer; eauto.
  - eapply capped_step; [| |exact IH].
    + eapply insertOperationTransfer_deploys; eauto.
    + intros id. eapply effective_minted_insertOperationTransfer; eauto.
Qed.

(** X1.  In every state that the store can reach, the supply of a
    deployed token, the sum of all its balance deltas, lies between zero
    and its max; and so does the minted supply that [getTokenSupply]
    reports. *)
Theorem minted_supply_within_max ticker token db :
  reachable db ->
  getDeploy ticker db = Some token ->
  0 <= effective_minted (d_id token) db
  /\ effective_minted (d_id token) db <= d_max token
  /\ forall s,
       getTokenSupply ticker db = Ok (Some s) ->
       0 <= minted_supply s /\ minted_supply s <= max_supply s.
Proof.
  intros R G. pose proof (reachable_capped _ R) as K.
  pose proof (reachable_consistent _ R) as C.
  unfold capped in K. rewrite Forall_forall in K.
  destruct (K token (getDeploy_In _ _ _ G)) as [K0 K1].
  split; [exact K0|]. split; [exact K1|].
  intros s H. unfold getTokenSupply in H.
  rewrite G, (supply_query_token _ _ _ C G) in H. simpl in H.
  unfold minted_query in H. fold (effective_minted (d_id token) db) in *.
  unfold effective_minted in K0, K1.
  destruct (rows_of_deploy (d_id token) db) as [|b rows]; simpl in H; [discriminate|].
  inv H. simpl. split; assumption.
Qed.

(** X2.  A mint that is accepted and asks for at least what remains of
    the supply brings the supply of its token to exactly the max. *)
Theorem mint_fills_supply mint iid loc db db' token a :
  reachable db ->
  getDeploy (mint_tick mint) db = Some token ->
  parse (mint_amt mint) = Some a ->
  insertMint mint iid loc db = Ok db' ->
  db' <> db ->
  remaining_supply token db <= a ->
  effective_minted (d_id token) db' == d_max token.
Proof.
  intros R G P H Hne Hle. pose proof (reachable_consistent _ R) as C.
  apply insertMint_effect in H as [->|(token' & a' & G' & P' & Hpos & ->)];
    [contradiction|].
  rewrite G in G'. inv G'. rewrite P in P'. inv P'.
  rewrite effective_minted_add_balances.
  change (effective_minted (d_id token') (add_mint (mint_row iid (d_id token') loc a') db))
    with (effective_minted (d_id token') db).
  simpl. rewrite N.eqb_refl. simpl. unfold row_total. simpl.
  pose proof (supply_inv _ C) as S. rewrite Forall_forall in S.
  unfold remaining_supply in Hle.
  destruct (S token' (getDeploy_In _ _ _ G)) as [S1|[S1 S2]]; [|lra].
  unfold credited. destruct (Qle_bool _ a') eqn:L.
  - lra.
  - apply Qle_bool_false in L. lra.
Qed.

(** X3.  Once the supply of a token has reached its max, every mint of
    that token, whatever its amount, leaves the store unchanged. *)
Theorem minted_out_rejects mint iid loc db token :
  reachable db ->
  getDeploy (mint_tick mint) db = Some token ->
  effective_minted (d_id token) db == d_max token ->
  insertMint mint iid loc db = Ok db.
Proof.
  intros R G E. pose proof (reachable_consistent _ R) as C.
  destruct (remaining_supply_agrees db token C (getDeploy_In _ _ _ G)) as [Hle _].
  assert (L : Qle_bool (d_max token - mintedSupply (d_id token) db) 0 = true).
  { apply Qle_bool_iff, Hle. unfold remaining_supply. lra. }
  unfold insertMint. rewrite G.
  destruct (match d_limit token with Some _ => _ | None => _ end); [reflexivity|].
  destruct (exceeds_decimals _ _); [reflexivity|].
  simpl. now rewrite L.
Qed.

(** X4.  Only a mint changes the supply of a token: a deploy, a reserve,
    a settlement and an ignored inscription leave the sum of the deltas
    of every token as it was. *)
Theorem only_mints_change_supply ev db db' id :
  deliver ev db = Ok db' ->
  is_mint ev = false ->
  effective_minted id db' == effective_minted id db.
Proof.
  intros H M. destruct ev as [iid brc20 loc|iid loc]; simpl in H.
  - unfold insertOperationGenesis in H.
    destruct brc20 as [op|]; [|inv H; reflexivity].
    destruct (truthy (address loc)); [|inv H; reflexivity].
    destruct op as [deploy|mint|transfer]; [| discriminate M |].
    + apply (effective_minted_insertDeploy _ _ _ _ _ id) in H. now rewrite H.
    + now apply (effective_minted_insertTransfer _ _ _ _ _ id) in H.
  - now apply (effective_minted_insertOperationTransfer _ _ _ _ id) in H.
Qed.

(** X5.  In every state that the store can reach the event log is the
    list of the deploy events, one for every token row and in the order
    of the rows: no other kind of event is ever written. *)
Theorem events_are_the_deploys db :
  reachable db ->
  brc20_events db
  = map (fun d => deploy_event (d_inscription_id d) (d_id d)) (brc20_deploys db).
Proof.
  induction 1 as [not_null|iid loc db R IH|brc20 iid loc db db' R IH H|iid loc db db' R IH H].
  - reflexivity.
  - exact IH.
  - unfold insertOperationGenesis in H.
    destruct brc20 as [op|]; [|now inv H].
    destruct (truthy (address loc)); [|now inv H].
    destruct op.
    + apply insertDeploy_row in H as [->|(row & Eid & Eiid & _ & ->)]; auto.
      simpl. rewrite map_app, IH. simpl. now rewrite Eid, Eiid.
    + apply insertMint_effect in H as [->|(token & a & _ & _ & _ & ->)]; auto.
    + apply insertTransfer_effect in H as [->|(ad & token & a & _ & _ & _ & _ & ->)];
        auto.
  - apply insertOperationTransfer_effect in H as [->|(tr & _ & _ & H)]; auto.
    apply applyBalanceTransfer_effect in H as [_ ->]. exact IH.
Qed.

(** ** Tables that only grow *)

Lemma without_receiver_update id to l :
  map without_receiver
      (map (fun t => if (t_id t =? id)%N then set_to_address to t else t) l)
  = map without_receiver l.
Proof.
  rewrite map_map. apply map_ext. intros t. destruct (t_id t =? id)%N; reflexivity.
Qed.

Lemma deliver_grows ev db db' :
  deliver ev db = Ok db' ->
  (exists ds, brc20_deploys db' = brc20_deploys db ++ ds)
  /\ (exists ms, brc20_mints db' = brc20_mints db ++ ms)
  /\ (exists bs, brc20_balances db' = brc20_balances db ++ bs)
  /\ (exists es, brc20_events db' = brc20_events db ++ es)
  /\ (exists ts, map without_receiver (brc20_transfers db')
                 = map without_receiver (brc20_transfers db) ++ ts).
Proof.
  assert (Same : forall iid loc,
    (exists ds, brc20_deploys (insert_location iid loc db) = brc20_deploys db ++ ds)
    /\ (exists ms, brc20_mints (insert_location iid loc db) = brc20_mints db ++ ms)
    /\ (exists bs, brc20_balances (insert_location iid loc db) = brc20_balances db ++ bs)
    /\ (exists es, brc20_events (insert_location iid loc db) = brc20_events db ++ es)
    /\ (exists ts, map without_receiver (brc20_transfers (insert_location iid loc db))
                   = map without_receiver (brc20_transfers db) ++ ts)).
  { intros. repeat split; exists []; simpl; now rewrite app_nil_r. }
  intros H. destruct ev as [iid brc20 loc|iid loc]; simpl in H.
  - unfold insertOperationGenesis in H.
    destruct brc20 as [op|]; [|inv H; apply Same].
    destruct (truthy (address loc)); [|inv H; apply Same].
    destruct op.
    + apply insertDeploy_row in H as [->|(row & _ & _ & _ & ->)]; [apply Same|].
      simpl. repeat split; eauto; exists []; now rewrite app_nil_r.
    + apply insertMint_effect in H as [->|(token & a & _ & _ & _ & ->)]; [apply Same|].
      simpl. repeat split; eauto; exists []; now rewrite app_nil_r.
    + apply insertTransfer_effect in H as [->|(ad & token & a & _ & _ & _ & _ & ->)];
        [apply Same|].
      simpl. repeat split; eauto; try (exists []; now rewrite app_nil_r).
      rewrite map_app. eauto.
  - apply insertOperationTransfer_effect in H as [->|(tr & _ & _ & H)]; [apply Same|].
    apply applyBalanceTransfer_effect in H as [_ ->].
    simpl. repeat split; eauto; try (exists []; now rewrite app_nil_r).
    exists []. now rewrite without_receiver_update, app_nil_r.
Qed.

(** X6.  The tables are append-only.  Over any run of deliveries the
    deploys, mints, balance deltas and events of the start are a prefix
    of those of the end, and so are the transfer intents apart from
    their receiver: no row is deleted and nothing but [to_address] is
    ever updated. *)
Theorem run_grows evs db db' :
  run evs db = Ok db' ->
  (exists ds, brc20_deploys db' = brc20_deploys db ++ ds)
  /\ (exists ms, brc20_mints db' = brc20_mints db ++ ms)
  /\ (exists bs, brc20_balances db' = brc20_balances db ++ bs)
  /\ (exists es, brc20_events db' = brc20_events db ++ es)
  /\ (exists ts, map without_receiver (brc20_transfers db')
                 = map without_receiver (brc20_transfers db) ++ ts).
Proof.
  revert db. induction evs as [|ev evs IH]; simpl; intros db H.
  - inv H. repeat split; exists []; now rewrite app_nil_r.
  - destruct (deliver ev db) as [db1|] eqn:D; simpl in H; [|discriminate].
    destruct (deliver_grows _ _ _ D)
      as ((ds & Ed) & (ms & Em) & (bs & Eb) & (es & Ee) & (ts & Et)).
    destruct (IH _ H)
      as ((ds' & Ed') & (ms' & Em') & (bs' & Eb') & (es' & Ee') & (ts' & Et')).
    repeat split.
    + exists (ds ++ ds'). now rewrite Ed', Ed, app_assoc.
    + exists (ms ++ ms'). now rewrite Em', Em, app_assoc.
    + exists (bs ++ bs'). now rewrite Eb', Eb, app_assoc.
    + exists (es ++ es'). now rewrite Ee', Ee, app_assoc.
    + exists (ts ++ ts'). now rewrite Et', Et, app_assoc.
Qed.

Lemma find_app_found {A : Type} (p : A -> bool) (l l' : list A) x :
  find p l = Some x -> find p (l ++ l') = Some x.
Proof.
  induction l as [|a l IH]; simpl; [discriminate|].
  destruct (p a); auto.
Qed.

(** X7.  A token is immutable: whatever is delivered afterwards, a
    lookup by any spelling of its ticker keeps finding the same row. *)
Theorem token_is_immutable evs db db' ticker token :
  run evs db = Ok db' ->
  getDeploy ticker db = Some token ->
  forall spelling,
    Str.lower spelling = Str.lower ticker ->
    getDeploy spelling db' = Some token.
Proof.
  intros H G spelling E.
  revert db H G. induction evs as [|ev evs IH]; simpl; intros db H G.
  - inv H. now rewrite (lower_getDeploy _ _ _ E).
  - destruct (deliver ev db) as [db1|] eqn:D; simpl in H; [|discriminate].
    apply (IH db1 H).
    destruct (deliver_grows _ _ _ D) as ((ds & Ed) & _).
    unfold getDeploy in *. rewrite Ed. now apply find_app_found.
Qed.

(** ** Balances stay above zero *)



Section FilteredSums.

Variable A : Type.
Variable f : A -> Q.
Variables p q : A -> bool.
Hypothesis p_q : forall x, p x = true -> q x = true.




End FilteredSums.














(** ** The two steps of a transfer *)




(** ** Aggregates of the queries *)

Lemma qsum_plus {A : Type} (f g : A -> Q) (l : list A) :
  qsum (map (fun x => f x + g x) l) == qsum (map f l) + qsum (map g l).
Proof.
  induction l as [|x l IH]; simpl; [lra|]. rewrite IH. lra.
Qed.

Lemma In_skipn {A : Type} (n : nat) (l : list A) x : In x (skipn n l) -> In x l.
Proof.
  revert l. induction n as [|n IH]; intros [|a l]; simpl; auto.
Qed.

(** X10.  In every row that [getBalances] returns the total balance is
    the available balance plus the transferable balance. *)
Theorem getBalances_total addr ticker limit offset db :
  Forall (fun r => total_balance r == avail_balance r + trans_balance r)
         (results (getBalances addr ticker limit offset db)).
Proof.
  apply Forall_forall. intros r Hr. unfold getBalances in Hr. simpl in Hr.
  apply In_firstn, In_skipn in Hr. apply in_map_iff in Hr as (t & <- & _).
  unfold balance_group. simpl. apply qsum_plus.
Qed.

(** ** Holders *)

Lemma address_eqb_eq a b : address_eqb a b = true <-> a = b.
Proof.
  destruct a as [x|], b as [y|]; simpl; split; intros H; try discriminate; auto.
  - apply String.eqb_eq in H. now subst.
  - inv H. apply String.eqb_refl.
Qed.

Lemma insert_desc_sum h l :
  qsum (map holder_total_balance (insert_desc h l))
  == holder_total_balance h + qsum (map holder_total_balance l).
Proof.
  induction l as [|x l IH]; simpl; [lra|].
  destruct (Qle_bool _ _); simpl; [lra|]. rewrite IH. lra.
Qed.

Lemma insert_desc_length h l : length (insert_desc h l) = S (length l).
Proof.
  induction l as [|x l IH]; simpl; [reflexivity|].
  destruct (Qle_bool _ _); simpl; [reflexivity|]. now rewrite IH.
Qed.

(** The order of the rows changes neither their number nor their sum. *)
Lemma order_by_total_desc_sum l :
  qsum (map holder_total_balance (order_by_total_desc l))
  == qsum (map holder_total_balance l).
Proof.
  induction l as [|x l IH]; simpl; [lra|]. rewrite insert_desc_sum, IH. lra.
Qed.

Lemma order_by_total_desc_length l : length (order_by_total_desc l) = length l.
Proof.
  induction l as [|x l IH]; simpl; [reflexivity|]. now rewrite insert_desc_length, IH.
Qed.

(** One key among distinct keys picks up a value exactly once. *)
Lemma qsum_one_key keys k (v : Q) :
  NoDup keys -> In k keys ->
  qsum (map (fun a => if address_eqb k a then v else 0) keys) == v.
Proof.
  induction 1 as [|a keys Hnot ND IH]; simpl; intros Hin; [contradiction|].
  destruct (address_eqb k a) eqn:E.
  - apply address_eqb_eq in E. subst a.
    assert (Z : qsum (map (fun a => if address_eqb k a then v else 0) keys) == 0).
    { clear IH Hin ND. induction keys as [|b keys IH]; simpl; [lra|].
      destruct (address_eqb k b) eqn:E.
      - apply address_eqb_eq in E. subst b. exfalso. apply Hnot. now left.
      - rewrite IH; [lra|]. intros H. apply Hnot. now right. }
    rewrite Z. lra.
  - destruct Hin as [->|Hin].
    + rewrite (proj2 (address_eqb_eq k k) eq_refl) in E. discriminate.
    + rewrite (IH Hin). lra.
Qed.

(** Grouping by address splits the rows: the sums of the groups add up
    to the sum of the rows. *)
Lemma group_by_address_sum (f : DbBrc20BalanceRow -> Q) keys rows :
  NoDup keys ->
  (forall b, In b rows -> In (b_address b) keys) ->
  qsum (map (fun a => qsum (map f (filter (fun b => address_eqb (b_address b) a) rows)))
            keys)
  == qsum (map f rows).
Proof.
  intros ND. induction rows as [|x rows IH]; simpl; intros Hin.
  - clear ND Hin. induction keys as [|a keys IHk]; simpl; [lra|].
    rewrite IHk. lra.
  - rewrite <- IH by (intros b Hb; apply Hin; now right).
    rewrite <- (qsum_one_key keys (b_address x) (f x) ND (Hin x (or_introl eq_refl)))
      at 1.
    clear IH Hin ND. induction keys as [|a keys IHk]; simpl; [lra|].
    rewrite IHk. destruct (address_eqb (b_address x) a); simpl; lra.
Qed.

Lemma holder_groups_sum id db :
  qsum (map holder_total_balance (holder_groups id db)) == effective_minted id db.
Proof.
  unfold holder_groups, effective_minted. rewrite map_map. simpl.
  apply group_by_address_sum.
  - apply NoDup_nodup.
  - intros b Hb. apply nodup_In. now apply in_map.
Qed.

(** X11.  When the page takes in every holder, the balances that
    [getTokenHolders] lists add up to the supply of the token, which is
    also the minted supply that [getTokenSupply] reports. *)
Theorem getTokenHolders_sum ticker token limit db :
  getDeploy ticker db = Some token ->
  (length (holder_groups (d_id token) db) <= limit)%nat ->
  exists r,
    getTokenHolders ticker limit 0 db = Some r
    /\ length (results r) = length (holder_groups (d_id token) db)
    /\ qsum (map holder_total_balance (results r)) == effective_minted (d_id token) db
    /\ forall s,
         getTokenSupply ticker db = Ok (Some s) ->
         qsum (map holder_total_balance (results r)) == minted_supply s.
Proof.
  intros G Hlen. unfold getTokenHolders. rewrite G. eexists. split; [reflexivity|].
  simpl.
  assert (F : firstn limit (order_by_total_desc (holder_groups (d_id token) db))
              = order_by_total_desc (holder_groups (d_id token) db)).
  { apply firstn_all2. now rewrite order_by_total_desc_length. }
  assert (Sum : qsum (map holder_total_balance
                         (order_by_total_desc (holder_groups (d_id token) db)))
                == effective_minted (d_id token) db)
    by now rewrite order_by_total_desc_sum, holder_groups_sum.
  rewrite F, order_by_total_desc_length.
  split; [reflexivity|]. split; [exact Sum|].
  intros s H. rewrite Sum. unfold getTokenSupply in H. rewrite G in H.
  destruct (nth_error (supply_query (d_id token) db) 0); simpl in H; [|discriminate].
  unfold minted_query in H. unfold effective_minted.
  destruct (rows_of_deploy (d_id token) db); simpl in H; [discriminate|].
  inv H. reflexivity.
Qed.

(** X12.  [getTokenHolders] answers for a token that nobody holds yet:
    an empty page with a total of zero, where [getTokenSupply] fails. *)
Theorem getTokenHolders_unminted ticker token limit offset db :
  getDeploy ticker db = Some token ->
  rows_of_deploy (d_id token) db = [] ->
  getTokenHolders ticker limit offset db = Some {| total := O; results := [] |}.
Proof.
  intros G E. unfold getTokenHolders, holder_groups. rewrite G, E. simpl.
  destruct offset; destruct limit; reflexivity.
Qed.

(** ** Tokens *)


(** ** The scenarios, run *)

Lemma reachable_state_after evs db :
  run evs (empty_db true) = Ok db -> reachable db.
Proof. apply reachable_run, reachable_empty. Qed.

(** Scenario 1: the supply of "ordi" after the mint of 500. *)
Example supply_after_mint :
  getTokenSupply "ordi" db_ordi_minted
  = Ok (Some {| max_supply := 21000000; minted_supply := 500; holders := 1 |}).
Proof. vm_compute. reflexivity. Qed.

(** Scenario 3: the second mint asks for 50 and is credited 20; the mint
    row keeps the 50. *)
Example capped_mint_rows :
  exists db,
    insertMint (mint_of "capd" "50") 3 (at_height 102 (Some "B")) db_capped_minted = Ok db
    /\ map m_amount (brc20_mints db) = [80; 50]
    /\ map b_avail_balance (brc20_balances db) = [80; 20]
    /\ brc20_events db = [deploy_event 1 1].
Proof. eexists. split; [vm_compute; reflexivity|]. vm_compute. auto. Qed.

(** Scenario 4: after the reserve and the move the balances are A
    (700, 0) and B (300, 0), and the log holds the deploy alone. *)
Example two_step_transfer :
  available "A" 1 db_ordi_sent == 700
  /\ available "B" 1 db_ordi_sent == 300
  /\ map t_to_address (brc20_transfers db_ordi_sent) = [Some "B"]
  /\ brc20_events db_ordi_sent = [deploy_event 1 1].
Proof. repeat split; vm_compute; reflexivity. Qed.

Lemma insertMint_remaining_supply_witness :
  reachable db_capped_minted
  /\ getDeploy "capd" db_capped_minted = Some token_capped
  /\ (0 < remaining_supply token_capped db_capped_minted ->
      exists effective,
        effective == Qmin 50 (remaining_supply token_capped db_capped_minted)
        /\ insertMint (mint_of "capd" "50") 3 (at_height 102 (Some "B")) db_capped_minted
           = Ok (add_balances
                   [balance_row 3 1 102 (Some "B") effective 0]
                   (add_mint (mint_row 3 1 (at_height 102 (Some "B")) 50)
                             db_capped_minted))).
Proof.
  assert (R : reachable db_capped_minted)
    by (apply (reachable_state_after capped_minted); vm_compute; reflexivity).
  split; [exact R|]. split; [vm_compute; reflexivity|].
  apply (insertMint_remaining_supply (mint_of "capd" "50") 3 (at_height 102 (Some "B"))
           db_capped_minted token_capped 50 "B").
  - exact R.
  - vm_compute. reflexivity.
  - vm_compute. reflexivity.
  - intros limit H. simpl in H. discriminate H.
  - simpl. lia.
  - reflexivity.
Defined.

Lemma transfer_settled_at_most_once_witness :
  (1 <= location_count 3 db_ordi_reserved)%nat
  /\ deliver (Transfer 3 (at_height 104 (Some "B"))) db_ordi_reserved = Ok db_ordi_sent
  /\ (forall evs db loc,
        run evs db_ordi_sent = Ok db ->
        deliver (Transfer 3 loc) db = Ok (insert_location 3 loc db))
  /\ brc20_events db_ordi_sent = brc20_events db_ordi_reserved.
Proof.
  assert (L : (1 <= location_count 3 db_ordi_reserved)%nat) by (vm_compute; lia).
  assert (D : deliver (Transfer 3 (at_height 104 (Some "B"))) db_ordi_reserved
              = Ok db_ordi_sent) by (vm_compute; reflexivity).
  split; [exact L|]. split; [exact D|].
  exact (proj2 (transfer_settled_at_most_once 3 (at_height 104 (Some "B"))
                  db_ordi_reserved db_ordi_sent L D)).
Defined.

Lemma insertTransfer_reserve_witness :
  reachable db_ordi_held
  /\ match getDeploy "ordi" db_ordi_held with
     | None =>
         insertTransfer (transfer_of "ordi" "300") 3 (at_height 102 (Some "A")) db_ordi_held
         = Ok db_ordi_held
     | Some token =>
         (available "A" (d_id token) db_ordi_held < 300 ->
          insertTransfer (transfer_of "ordi" "300") 3 (at_height 102 (Some "A"))
                         db_ordi_held
          = Ok db_ordi_held)
         /\ (300 <= available "A" (d_id token) db_ordi_held ->
             exists db',
               insertTransfer (transfer_of "ordi" "300") 3 (at_height 102 (Some "A"))
                              db_ordi_held
               = Ok db'
               /\ brc20_transfers db'
                  = brc20_transfers db_ordi_held
                    ++ [transfer_row (transfers_seq db_ordi_held) 3 (d_id token)
                                     (at_height 102 (Some "A")) "A" None 300]
               /\ brc20_balances db'
                  = brc20_balances db_ordi_held
                    ++ [balance_row 3 (d_id token) 102 (Some "A") (- (300)) 300]
               /\ brc20_events db' = brc20_events db_ordi_held)
     end.
Proof.
  assert (R : reachable db_ordi_held)
    by (apply (reachable_state_after ordi_held); vm_compute; reflexivity).
  split; [exact R|].
  apply (insertTransfer_reserve (transfer_of "ordi" "300") 3 (at_height 102 (Some "A"))
           "A" 300 db_ordi_held).
  - exact R.
  - reflexivity.
  - vm_compute. reflexivity.
Defined.

Lemma insertMint_accepted_witness :
  insertMint (mint_of "capd" "50") 3 (at_height 102 (Some "B")) db_capped_minted
  = Ok db_capped_full
  /\ db_capped_full <> db_capped_minted
  /\ exists token requested,
       getDeploy "capd" db_capped_minted = Some token
       /\ parse "50" = Some requested
       /\ db_capped_full
          = add_balances
              [balance_row 3 (d_id token) 102 (Some "B")
                           (credited token requested db_capped_minted) 0]
              (add_mint (mint_row 3 (d_id token) (at_height 102 (Some "B")) requested)
                        db_capped_minted)
       /\ brc20_events db_capped_full = brc20_events db_capped_minted.
Proof.
  assert (H : insertMint (mint_of "capd" "50") 3 (at_height 102 (Some "B"))
                         db_capped_minted = Ok db_capped_full)
    by (vm_compute; reflexivity).
  assert (N : db_capped_full <> db_capped_minted).
  { intros E. apply (f_equal (fun db => length (brc20_mints db))) in E.
    vm_compute in E. discriminate E. }
  split; [exact H|]. split; [exact N|].
  exact (insertMint_accepted (mint_of "capd" "50") 3 (at_height 102 (Some "B"))
           db_capped_minted db_capped_full H N).
Defined.

Lemma insertDeploy_first_writer_wins_witness :
  reachable db_ordi_deployed
  /\ unique_tickers db_ordi_deployed
  /\ exists db',
       insertDeploy {| deploy_tick := "ORDI"; deploy_max := "5";
                       deploy_lim := None; deploy_dec := Some "2" |}
                    7 (at_height 105 (Some "B")) db_ordi_deployed
       = Ok db'.
Proof.
  assert (R : reachable db_ordi_deployed)
    by (apply (reachable_state_after ordi_deployed); vm_compute; reflexivity).
  split; [exact R|].
  destruct (insertDeploy_first_writer_wins
              {| deploy_tick := "ORDI"; deploy_max := "5";
                 deploy_lim := None; deploy_dec := Some "2" |}
              7 (at_height 105 (Some "B")) "B" db_ordi_deployed R eq_refl eq_refl)
    as (U & db' & H & _).
  split; [exact U|]. exists db'. exact H.
Defined.

Lemma insertMint_rejects_witness :
  (exists token limit a,
      getDeploy "ordi" db_ordi_minted = Some token
      /\ d_limit token = Some limit
      /\ parse "2000" = Some a
      /\ limit < a)
  /\ insertMint (mint_of "ordi" "2000") 3 (at_height 102 (Some "A")) db_ordi_minted
     = Ok db_ordi_minted.
Proof.
  assert (H : exists token limit a,
             getDeploy (mint_tick (mint_of "ordi" "2000")) db_ordi_minted = Some token
             /\ d_limit token = Some limit
             /\ parse (mint_amt (mint_of "ordi" "2000")) = Some a
             /\ limit < a).
  { exists token_ordi, 1000, 2000. repeat split; vm_compute; reflexivity. }
  split; [exact H|].
  apply (insertMint_rejects (mint_of "ordi" "2000") 3 (at_height 102 (Some "A"))
           db_ordi_minted).
  right. left. exact H.
Defined.

Lemma getTokenSupply_result_witness :
  reachable db_ordi_deployed
  /\ getDeploy "ordi" db_ordi_deployed = Some token_ordi
  /\ getTokenSupply "ordi" db_ordi_deployed = Throw TypeError.
Proof.
  assert (R : reachable db_ordi_deployed)
    by (apply (reachable_state_after ordi_deployed); vm_compute; reflexivity).
  assert (G : getDeploy "ordi" db_ordi_deployed = Some token_ordi)
    by (vm_compute; reflexivity).
  split; [exact R|]. split; [exact G|].
  exact (getTokenSupply_result "ordi" token_ordi db_ordi_deployed R G).
Defined.

Lemma getTokenSupply_unminted_witness :
  getDeploy "ordi" db_ordi_deployed = Some token_ordi
  /\ rows_of_deploy (d_id token_ordi) db_ordi_deployed = []
  /\ getTokenSupply "ordi" db_ordi_deployed = Throw TypeError.
Proof.
  assert (G : getDeploy "ordi" db_ordi_deployed = Some token_ordi)
    by (vm_compute; reflexivity).
  split; [exact G|]. split; [reflexivity|].
  exact (getTokenSupply_unminted "ordi" token_ordi db_ordi_deployed G eq_refl).
Defined.

Lemma fee_spent_move_is_not_guarded_witness :
  location_count 3 db_ordi_reserved = 1%nat
  /\ intents 3 db_ordi_reserved = [intent_300]
  /\ address fee_location = None
  /\ address_not_null db_ordi_reserved = true
  /\ deliver (Transfer 3 fee_location) db_ordi_reserved = Throw NotNullViolation.
Proof.
  assert (L : location_count 3 db_ordi_reserved = 1%nat) by (vm_compute; reflexivity).
  assert (I : intents 3 db_ordi_reserved = [intent_300]) by (vm_compute; reflexivity).
  split; [exact L|]. split; [exact I|]. split; [reflexivity|]. split; [reflexivity|].
  exact (proj1 (fee_spent_move_is_not_guarded 3 fee_location intent_300
                  db_ordi_reserved L I eq_refl) eq_refl).
Defined.

(** Inscription 3 of scenario 4 spent as a fee, seen at the settlement
    itself.  Where the address columns take NULL the settlement writes
    the credit row as well, keyed by NULL, and leaves the intent's
    receiver NULL; where they do not, the statement is refused and
    nothing is settled.  A burn with a sentinel and an event happens in
    neither store. *)
Lemma fee_spend_does_not_burn :
  ~ (exists db',
        applyBalanceTransfer intent_300 fee_location (db_fee_spent false) = Ok db'
        /\ burns intent_300 fee_location (db_fee_spent false) db')
  /\ ~ (exists db',
          applyBalanceTransfer intent_300 fee_location (db_fee_spent true) = Ok db'
          /\ burns intent_300 fee_location (db_fee_spent true) db').
Proof.
  split; intros (db' & H & B & _).
  - apply applyBalanceTransfer_effect in H as [_ ->].
    apply (f_equal (@length _)) in B. vm_compute in B. discriminate B.
  - apply applyBalanceTransfer_effect in H as [A _].
    vm_compute in A. discriminate A.
Qed.

(** ** The further properties, run on the scenarios *)

Lemma minted_supply_within_max_witness :
  reachable db_ordi_minted
  /\ getDeploy "ordi" db_ordi_minted = Some token_ordi
  /\ 0 <= effective_minted 1 db_ordi_minted
  /\ effective_minted 1 db_ordi_minted <= 21000000.
Proof.
  assert (R : reachable db_ordi_minted)
    by (apply (reachable_state_after ordi_minted); vm_compute; reflexivity).
  assert (G : getDeploy "ordi" db_ordi_minted = Some token_ordi)
    by (vm_compute; reflexivity).
  split; [exact R|]. split; [exact G|].
  destruct (minted_supply_within_max "ordi" token_ordi db_ordi_minted R G)
    as (A & B & _).
  split; [exact A|exact B].
Defined.

Lemma mint_fills_supply_witness :
  reachable db_capped_minted
  /\ insertMint (mint_of "capd" "50") 3 (at_height 102 (Some "B")) db_capped_minted
     = Ok db_capped_full
  /\ remaining_supply token_capped db_capped_minted <= 50
  /\ effective_minted 1 db_capped_full == 100.
Proof.
  assert (R : reachable db_capped_minted)
    by (apply (reachable_state_after capped_minted); vm_compute; reflexivity).
  assert (H : insertMint (mint_of "capd" "50") 3 (at_height 102 (Some "B"))
                         db_capped_minted = Ok db_capped_full)
    by (vm_compute; reflexivity).
  assert (N : db_capped_full <> db_capped_minted).
  { intros E. apply (f_equal (fun db => length (brc20_mints db))) in E.
    vm_compute in E. discriminate E. }
  assert (L : remaining_supply token_capped db_capped_minted <= 50)
    by (vm_compute; discriminate).
  split; [exact R|]. split; [exact H|]. split; [exact L|].
  exact (mint_fills_supply (mint_of "capd" "50") 3 (at_height 102 (Some "B"))
           db_capped_minted db_capped_full token_capped 50 R eq_refl eq_refl H N L).
Defined.

Lemma minted_out_rejects_witness :
  reachable db_capped_out
  /\ effective_minted 1 db_capped_out == 100
  /\ insertMint (mint_of "capd" "1") 4 (at_height 103 (Some "C")) db_capped_out
     = Ok db_capped_out.
Proof.
  assert (R : reachable db_capped_out)
    by (apply (reachable_state_after capped_full); vm_compute; reflexivity).
  assert (E : effective_minted (d_id token_capped) db_capped_out == d_max token_capped)
    by (vm_compute; reflexivity).
  split; [exact R|]. split; [exact E|].
  exact (minted_out_rejects (mint_of "capd" "1") 4 (at_height 103 (Some "C"))
           db_capped_out token_capped R eq_refl E).
Defined.

Lemma only_mints_change_supply_witness :
  deliver (Transfer 3 (at_height 104 (Some "B"))) db_ordi_reserved = Ok db_ordi_sent
  /\ effective_minted 1 db_ordi_sent == effective_minted 1 db_ordi_reserved.
Proof.
  assert (D : deliver (Transfer 3 (at_height 104 (Some "B"))) db_ordi_reserved
              = Ok db_ordi_sent) by (vm_compute; reflexivity).
  split; [exact D|].
  exact (only_mints_change_supply (Transfer 3 (at_height 104 (Some "B")))
           db_ordi_reserved db_ordi_sent 1 D eq_refl).
Defined.

Lemma events_are_the_deploys_witness :
  reachable db_ordi_sent
  /\ brc20_events db_ordi_sent
     = map (fun d => deploy_event (d_inscription_id d) (d_id d))
           (brc20_deploys db_ordi_sent).
Proof.
  assert (R : reachable db_ordi_sent)
    by (apply (reachable_state_after ordi_sent); vm_compute; reflexivity).
  split; [exact R|].
  exact (events_are_the_deploys db_ordi_sent R).
Defined.

Lemma run_grows_witness :
  run [Transfer 3 (at_height 104 (Some "B"))] db_ordi_reserved = Ok db_ordi_sent
  /\ exists bs, brc20_balances db_ordi_sent = brc20_balances db_ordi_reserved ++ bs.
Proof.
  assert (H : run [Transfer 3 (at_height 104 (Some "B"))] db_ordi_reserved
              = Ok db_ordi_sent) by (vm_compute; reflexivity).
  split; [exact H|].
  destruct (run_grows [Transfer 3 (at_height 104 (Some "B"))]
              db_ordi_reserved db_ordi_sent H) as (_ & _ & B & _).
  exact B.
Defined.

Lemma token_is_immutable_witness :
  run [Transfer 3 (at_height 104 (Some "B"))] db_ordi_reserved = Ok db_ordi_sent
  /\ getDeploy "ordi" db_ordi_reserved = Some token_ordi
  /\ getDeploy "ORDI" db_ordi_sent = Some token_ordi.
Proof.
  assert (H : run [Transfer 3 (at_height 104 (Some "B"))] db_ordi_reserved
              = Ok db_ordi_sent) by (vm_compute; reflexivity).
  assert (G : getDeploy "ordi" db_ordi_reserved = Some token_ordi)
    by (vm_compute; reflexivity).
  split; [exact H|]. split; [exact G|].
  exact (token_is_immutable [Transfer 3 (at_height 104 (Some "B"))]
           db_ordi_reserved db_ordi_sent "ordi" token_ordi H G "ORDI" eq_refl).
Defined.



Lemma getTokenHolders_sum_witness :
  getDeploy "ordi" db_ordi_sent = Some token_ordi
  /\ (length (holder_groups 1 db_ordi_sent) <= 10)%nat
  /\ exists r,
       getTokenHolders "ordi" 10 0 db_ordi_sent = Some r
       /\ qsum (map holder_total_balance (results r)) == effective_minted 1 db_ordi_sent.
Proof.
  assert (G : getDeploy "ordi" db_ordi_sent = Some token_ordi)
    by (vm_compute; reflexivity).
  assert (L : (length (holder_groups (d_id token_ordi) db_ordi_sent) <= 10)%nat)
    by (vm_compute; lia).
  split; [exact G|]. split; [exact L|].
  destruct (getTokenHolders_sum "ordi" token_ordi 10 db_ordi_sent G L)
    as (r & H & _ & S & _).
  exists r. split; [exact H|exact S].
Defined.

Lemma getTokenHolders_unminted_witness :
  getDeploy "ordi" db_ordi_deployed = Some token_ordi
  /\ rows_of_deploy 1 db_ordi_deployed = []
  /\ getTokenHolders "ordi" 10 0 db_ordi_deployed
     = Some {| total := O; results := [] |}.
Proof.
  assert (G : getDeploy "ordi" db_ordi_deployed = Some token_ordi)
    by (vm_compute; reflexivity).
  split; [exact G|]. split; [reflexivity|].
  exact (getTokenHolders_unminted "ordi" token_ordi 10 0 db_ordi_deployed G eq_refl).
Defined.

